(** * SPSPS: a shallow embedding of the UTF-8 codec, the chained mutable
    string and the stream parser core, with the properties of the spec. *)

From Stdlib Require Import ZArith List Lia Bool String.
Import ListNotations.
Local Open Scope Z_scope.

(* ================================================================== *)
(** ** The UTF-8 codec ([utf8.c]) *)
(* ================================================================== *)

Module UTF8.

(** [(uint8_t) x]: keep the low eight bits. *)
Definition u8 (x : Z) : Z := Z.land x 255.

(** [utf8encode]: the buffer is [calloc(7, 1)], so the bytes after the
    encoding are zero; the second component is [*used]. *)
Definition utf8encode (code_point : Z) : list Z * Z :=
  if code_point <? 0x80 then
    ([u8 code_point; 0; 0; 0; 0; 0; 0], 1)
  else if code_point <? 0x800 then
    ([u8 (Z.shiftr code_point 6 + 0xc0);
      u8 (Z.land code_point 0x3f + 0x80); 0; 0; 0; 0; 0], 2)
  else if code_point <? 0x1000 then
    ([u8 (Z.shiftr code_point 12 + 0xe0);
      u8 (Z.land (Z.shiftr code_point 6) 0x3f + 0x80);
      u8 (Z.land code_point 0x3f + 0x80); 0; 0; 0; 0], 3)
  else if code_point <? 0x110000 then
    ([u8 (Z.shiftr code_point 18 + 0xf0);
      u8 (Z.land (Z.shiftr code_point 12) 0x3f + 0x80);
      u8 (Z.land (Z.shiftr code_point 6) 0x3f + 0x80);
      u8 (Z.land code_point 0x3f + 0x80); 0; 0; 0], 4)
  else
    ([0; 0; 0; 0; 0; 0; 0], 0).

(** [utf8encode_size]. *)
Definition utf8encode_size (code_point : Z) : Z :=
  if code_point <? 0x80 then 1
  else if code_point <? 0x800 then 2
  else if code_point <? 0x1000 then 3
  else if code_point <? 0x110000 then 4
  else 0.

(** [BADUTF8(b)]. *)
Definition BADUTF8 (b : Z) : Z := Z.lor 0xDC00 b.

(** [uinput[i]]. *)
Definition byte_at (input : list Z) (i : nat) : Z := nth i input 0.

(** [(b & 0xC0) != 0x80]: [b] is not a continuation byte. *)
Definition not_cont (b : Z) : bool := negb (Z.land b 0xC0 =? 0x80).

(** [utf8decode]: [None] is a [NULL] input; the result is the code point
    and [*used]. *)
Definition utf8decode (input : option (list Z)) : Z * Z :=
  match input with
  | None => (0, 0)
  | Some u =>
    let b0 := byte_at u 0 in
    let b1 := byte_at u 1 in
    let b2 := byte_at u 2 in
    let b3 := byte_at u 3 in
    if b0 <? 0x80 then (b0, 1)
    else if b0 <? 0xC0 then (Z.lor 0xDC00 b0, 0)
    else if b0 <? 0xE0 then
      if not_cont b1 then (BADUTF8 b1, 1)
      else (Z.lor (Z.shiftl (Z.land b0 0x1F) 6) (Z.land b1 0x3F), 2)
    else if b0 <? 0xF0 then
      if not_cont b1 then (BADUTF8 b1, 1)
      else if not_cont b2 then (BADUTF8 b2, 2)
      else (Z.lor (Z.lor (Z.shiftl (Z.land b0 0x07) 12)
                         (Z.shiftl (Z.land b1 0x3F) 6))
                  (Z.land b2 0x3F), 3)
    else if b0 <? 0xF8 then
      if not_cont b1 then (BADUTF8 b1, 1)
      else if not_cont b2 then (BADUTF8 b2, 2)
      else if not_cont b3 then (BADUTF8 b3, 3)
      else (Z.lor (Z.lor (Z.lor (Z.shiftl (Z.land b0 0x07) 18)
                                (Z.shiftl (Z.land b1 0x3F) 12))
                         (Z.shiftl (Z.land b2 0x3F) 6))
                  (Z.land b3 0x3F), 4)
    else (BADUTF8 b0, 0)
  end.

(** [utf8decode_size]. *)
Definition utf8decode_size (input : option (list Z)) : Z :=
  match input with
  | None => 0
  | Some u =>
    let b0 := byte_at u 0 in
    let b1 := byte_at u 1 in
    let b2 := byte_at u 2 in
    let b3 := byte_at u 3 in
    if b0 <? 0x80 then 1
    else if b0 <? 0xC0 then 1
    else if b0 <? 0xE0 then (if not_cont b1 then 1 else 2)
    else if b0 <? 0xF0 then
      (if not_cont b1 then 1 else if not_cont b2 then 2 else 3)
    else if b0 <? 0xF8 then
      (if not_cont b1 then 1 else if not_cont b2 then 2
       else if not_cont b3 then 3 else 4)
    else 1
  end.

(** [is_ISO_control]. *)
Definition is_ISO_control (code_point : Z) : bool :=
  (code_point <=? 0x001F) ||
  ((0x007F <=? code_point) && (code_point <=? 0x009F)).

(** [is_whitespace]. *)
Definition is_whitespace (code_point : Z) : bool :=
  ((0x0009 <=? code_point) && (code_point <=? 0x000D)) ||
  (code_point =? 0x0020) ||
  (code_point =? 0x0085) ||
  (code_point =? 0x00A0) ||
  (code_point =? 0x1680) ||
  ((0x2000 <=? code_point) && (code_point <=? 0x200A)) ||
  (code_point =? 0x2028) ||
  (code_point =? 0x2029) ||
  (code_point =? 0x202F) ||
  (code_point =? 0x205F) ||
  (code_point =? 0x3000).

(** [utf8decode] seen from a caller that passes its own [used]: the last
    branch ([uinput[0] >= 0xF8]) returns without writing [*used], so the
    caller's previous value is left in place. *)
Definition utf8decode_at (used : Z) (input : option (list Z)) : Z * Z :=
  match input with
  | Some u =>
    if 0xF8 <=? byte_at u 0 then (fst (utf8decode input), used)
    else utf8decode input
  | None => utf8decode input
  end.

End UTF8.

(* ================================================================== *)
(** ** Strings ([xstring.c]) *)
(* ================================================================== *)

Module XString.
Import UTF8.

(** [strlen]: a C string is a byte list, read up to its first NUL (or
    to its end, where the terminator is implied). *)
Fixpoint strlen (s : list Z) : nat :=
  match s with
  | [] => O
  | c :: r => if c =? 0 then O else S (strlen r)
  end.

(** [#define MSTR_INC 64]. *)
Definition MSTR_INC : nat := 64.

(** [memcpy(dst + off, src, n)] over a byte array modelled as a function
    from offsets to bytes; [src] is itself such a function. *)
Definition memcpy_fn (dst : nat -> Z) (off : nat) (src : nat -> Z) (n : nat)
  : nat -> Z :=
  fun i => if (off <=? i)%nat && (i <? off + n)%nat then src (i - off)%nat
           else dst i.

Definition memcpy (dst : nat -> Z) (off : nat) (src : list Z) (n : nat)
  : nat -> Z :=
  memcpy_fn dst off (fun j => nth j src 0) n.

(** *** Immutable strings: [NULL] is [None]. *)

Record xstring_ := { xcstr : list Z; xlength : nat }.
Definition xstring := option xstring_.

Definition xstr_wrap (value : list Z) : xstring :=
  let len := strlen value in
  if (len =? 0)%nat then None
  else Some {| xcstr := firstn len value; xlength := len |}.

Definition xstr_append_cstr (value : xstring) (cstr : list Z) : xstring :=
  match value with
  | None => xstr_wrap cstr
  | Some v =>
    let len := strlen cstr in
    if (len =? 0)%nat then value
    else Some {| xcstr := firstn (xlength v) (xcstr v) ++ firstn len cstr;
                 xlength := xlength v + len |}
  end.

Definition xstr_append (value : xstring) (ch : Z) : xstring :=
  xstr_append_cstr value (fst (utf8encode ch)).

(** *** Mutable strings: a chain of blocks, [NULL] is the empty chain.
    Each block records its character array, its capacity, the bytes used
    in it and the [length] of the string from this block forward.  Sizes
    are [size_t]; the model uses [nat], so [local_capacity - local_length]
    is only faithful while a block is not over-full, which every
    operation below maintains. *)

Record mstring_ := {
  cstr : nat -> Z;
  local_capacity : nat;
  local_length : nat;
  length : nat
}.
Definition mstring := list mstring_.

Section Alloc.

(** The contents of freshly allocated (uninitialised) memory. *)
Variable junk : nat -> Z.

Definition mstr_new_block (capacity : nat) : mstring_ :=
  let capacity := if (capacity =? 0)%nat then MSTR_INC else capacity in
  {| cstr := junk; local_capacity := capacity; local_length := 0;
     length := 0 |}.

Definition mstr_new (capacity : nat) : mstring := [mstr_new_block capacity].

Definition mstr_length (value : mstring) : nat :=
  match value with
  | [] => O
  | b :: _ => length b
  end.

Definition set_length (b : mstring_) (n : nat) : mstring_ :=
  {| cstr := cstr b; local_capacity := local_capacity b;
     local_length := local_length b; length := n |}.

Definition mstr_wrap (value : list Z) : mstring :=
  let len := strlen value in
  if (len =? 0)%nat then []
  else
    let str := mstr_new_block (len + MSTR_INC) in
    [{| cstr := memcpy (cstr str) 0 value len;
        local_capacity := local_capacity str;
        local_length := len; length := len |}].

(** The block-by-block copy loop of [mstr_copy] and [mstr_cstr]. *)
Fixpoint copy_blocks (there_buf : nat -> Z) (there : nat) (here : mstring)
  : nat -> Z :=
  match here with
  | [] => there_buf
  | b :: rest =>
    copy_blocks (memcpy_fn there_buf there (cstr b) (local_length b))
                (there + local_length b) rest
  end.

Definition mstr_copy (other : mstring) : mstring :=
  let len := mstr_length other in
  if (len =? 0)%nat then []
  else
    let str := mstr_new_block (len + MSTR_INC) in
    [{| cstr := copy_blocks (cstr str) 0 other;
        local_capacity := local_capacity str;
        local_length := len; length := len |}].

(** The part of [mstr_append_cstr] after the [len == 0] test: add [len]
    to every [length] on the way to the last block, then fill it and, if
    needed, chain a new block holding the rest. *)
Fixpoint append_chain (len : nat) (src : list Z) (value : mstring) : mstring :=
  match value with
  | [] => []
  | [here] =>
    let here := set_length here (length here + len) in
    let excess := (local_capacity here - local_length here)%nat in
    if (len <=? excess)%nat then
      [{| cstr := memcpy (cstr here) (local_length here) src len;
          local_capacity := local_capacity here;
          local_length := local_length here + len;
          length := length here |}]
    else if (0 <? excess)%nat then
      (* here->local_length += excess;
         memcpy(here->cstr + here->local_length, cstr, excess); *)
      let ll := (local_length here + excess)%nat in
      {| cstr := memcpy (cstr here) ll src excess;
         local_capacity := local_capacity here;
         local_length := ll;
         length := length here |} :: mstr_wrap (skipn excess src)
    else here :: mstr_wrap src
  | here :: rest =>
    set_length here (length here + len) :: append_chain len src rest
  end.

Definition mstr_append_cstr (value : mstring) (src : list Z) : mstring :=
  match value with
  | [] => mstr_wrap src
  | _ =>
    let len := strlen src in
    if (len =? 0)%nat then value else append_chain len src value
  end.

Definition mstr_append (value : mstring) (ch : Z) : mstring :=
  mstr_append_cstr value (fst (utf8encode ch)).

(** The walk of [mstr_concat]: add the length of [second] on the way,
    truncate the capacity of the last block and link [second] to it. *)
Fixpoint concat_chain (slen : nat) (here : mstring) (second : mstring)
  : mstring :=
  match here with
  | [] => second
  | [b] =>
    {| cstr := cstr b; local_capacity := local_length b;
       local_length := local_length b; length := length b + slen |} :: second
  | b :: rest => set_length b (length b + slen) :: concat_chain slen rest second
  end.

Definition mstr_concat (first second : mstring) : mstring :=
  match second with
  | [] => first
  | _ =>
    match first with
    | [] => second
    | _ => concat_chain (mstr_length second) first second
    end
  end.

(** [mstr_cstr]: the result is the [length + 1] bytes of the returned
    buffer, the last one being the terminating NUL. *)
Definition mstr_cstr (value : mstring) : list Z :=
  let len := mstr_length value in
  if (len =? 0)%nat then [0]
  else
    let buf := copy_blocks junk 0 value in
    let buf := fun i => if (i =? len)%nat then 0 else buf i in
    map buf (seq 0 (S len)).

End Alloc.

(** The bytes of a sequence of characters encoded one by one. *)
Definition encode_all (cps : list Z) : list Z :=
  flat_map (fun cp => firstn (Z.to_nat (snd (utf8encode cp)))
                             (fst (utf8encode cp))) cps.

(** The invariant of the block chain. *)
Definition sum_used (value : mstring) : nat :=
  fold_right (fun b acc => (local_length b + acc)%nat) O value.

Fixpoint all_but_last_full (value : mstring) : Prop :=
  match value with
  | [] => True
  | [_] => True
  | b :: rest => local_length b = local_capacity b /\ all_but_last_full rest
  end.

Definition mstr_inv (value : mstring) : Prop :=
  mstr_length value = sum_used value /\ all_but_last_full value /\
  Forall (fun b => (local_length b <= local_capacity b)%nat) value.

(** *** More of the immutable strings. *)

Definition xstr_new : xstring := Some {| xcstr := []; xlength := 0 |}.

Definition xstr_length (value : xstring) : nat :=
  match value with None => O | Some v => xlength v end.

Definition xstr_copy (other : xstring) : xstring :=
  match other with
  | None => None
  | Some o =>
    if (xlength o =? 0)%nat then None
    else Some {| xcstr := firstn (xlength o) (xcstr o); xlength := xlength o |}
  end.

Definition xstr_concat (first second : xstring) : xstring :=
  if (xstr_length second =? 0)%nat then xstr_copy first
  else if (xstr_length first =? 0)%nat then xstr_copy second
  else
    match first, second with
    | Some f, Some s =>
      Some {| xcstr := firstn (xlength f) (xcstr f) ++
                       firstn (xlength s) (xcstr s);
              xlength := xlength f + xlength s |}
    | _, _ => None
    end.

(** [xstr_cstr]: the [length + 1] bytes of the returned buffer. *)
Definition xstr_cstr (value : xstring) : list Z :=
  match value with
  | None => [0]
  | Some v =>
    if (xlength v =? 0)%nat then [0] else firstn (xlength v) (xcstr v) ++ [0]
  end.

(** *** Comparison.  [xch] is [char], whose signedness the platform
    chooses; [xch_val b] is the [int] a [char] holding byte [b] promotes
    to.  The [lhs == rhs] pointer test at the head of both functions is
    left out: equal pointers have equal contents, for which the rest of
    the function also returns [0]. *)

Section Compare.
Variable xch_val : Z -> Z.

(** The [while (lhslen > 0)] loop of [xstr_strcmp] and what follows it. *)
Fixpoint strcmp_loop (lhsp rhsp : list Z) (lhslen rhslen : nat) : Z :=
  match lhslen with
  | O => if (0 <? rhslen)%nat then -1 else 0
  | S l =>
    match rhslen with
    | O => 1
    | S r =>
      let a := xch_val (hd 0 lhsp) in
      let b := xch_val (hd 0 rhsp) in
      if a <? b then -1 else if b <? a then 1
      else strcmp_loop (tl lhsp) (tl rhsp) l r
    end
  end.

Definition xstr_strcmp (lhs rhs : xstring) : Z :=
  let lhslen := xstr_length lhs in
  let rhslen := xstr_length rhs in
  if (lhslen =? 0)%nat then (if (0 <? rhslen)%nat then -1 else 0)
  else if (rhslen =? 0)%nat then 1
  else
    match lhs, rhs with
    | Some l, Some r => strcmp_loop (xcstr l) (xcstr r) lhslen rhslen
    | _, _ => 0
    end.

(** [while (lhs != NULL && lhs->local_length == 0) lhs = lhs->next;] *)
Fixpoint skip_empty (value : mstring) : mstring :=
  match value with
  | [] => []
  | b :: rest => if (local_length b =? 0)%nat then skip_empty rest else value
  end.

(** A position in a chain: the current block and those after it, the
    bytes left in the current block ([lhsll]) and the offset of the
    current byte in it ([lhsp - lhs->cstr]). *)
Definition mpos := (mstring * nat * nat)%type.

(** The inner [while (lhsll == 0 && lhs != NULL)] loop. *)
Fixpoint advance (chain : mstring) (ll off : nat) {struct chain} : mpos :=
  match chain with
  | [] => ([], ll, off)
  | _ :: rest =>
    if (ll =? 0)%nat then
      match rest with
      | [] => ([], ll, off)
      | b :: _ => advance rest (local_length b) 0
      end
    else (chain, ll, off)
  end.

(** The main loop of [mstr_strcmp] and the tests after it; [fuel] bounds
    the number of rounds, each of which uses one byte of [lhs]. *)
Fixpoint mstr_cmp_loop (fuel : nat) (l r : mpos) : Z :=
  match fuel with
  | O => 0
  | S f =>
    let '(lc, lll, lp) := l in
    let '(rc, rll, rp) := r in
    match lc, rc with
    | lb :: _, rb :: _ =>
      let a := xch_val (cstr lb lp) in
      let b := xch_val (cstr rb rp) in
      if a <? b then -1 else if b <? a then 1
      else mstr_cmp_loop f (advance lc (lll - 1) (S lp))
                           (advance rc (rll - 1) (S rp))
    | [], [] => 0
    | [], _ => -1
    | _, [] => 1
    end
  end.

Definition first_pos (value : mstring) : mpos :=
  let v := skip_empty value in
  (v, match v with [] => O | b :: _ => local_length b end, O).

Definition mstr_strcmp (lhs rhs : mstring) : Z :=
  let lhslen := mstr_length lhs in
  let rhslen := mstr_length rhs in
  if (lhslen =? 0)%nat then (if (0 <? rhslen)%nat then -1 else 0)
  else if (rhslen =? 0)%nat then 1
  else mstr_cmp_loop (S lhslen) (first_pos lhs) (first_pos rhs).

(** Lexicographic order on byte lists, for comparison with the above. *)
Fixpoint lex (l1 l2 : list Z) : Z :=
  match l1, l2 with
  | [], [] => 0
  | [], _ => -1
  | _, [] => 1
  | a :: x, b :: y =>
    if xch_val a <? xch_val b then -1
    else if xch_val b <? xch_val a then 1 else lex x y
  end.

End Compare.

(** *** Conversions between the two kinds of string. *)

Section Alloc2.
Variable junk : nat -> Z.

Definition mstr_to_xstr (other : mstring) : xstring :=
  let len := mstr_length other in
  if (len =? 0)%nat then None
  else Some {| xcstr := map (copy_blocks junk 0 other) (seq 0 len);
               xlength := len |}.

Definition xstr_to_mstr (other : xstring) : mstring :=
  match other with
  | None => []
  | Some o =>
    let len := xlength o in
    if (len =? 0)%nat then []
    else
      let ret := mstr_new_block junk (len + MSTR_INC) in
      [{| cstr := memcpy (cstr ret) 0 (xcstr o) len;
          local_capacity := local_capacity ret;
          local_length := len; length := len |}]
  end.

End Alloc2.

(** *** Decoding to code points. *)

(** The loop of [count_code_points]; [length] is a [size_t].  Each round
    uses at least one byte, so [length + 1] rounds suffice unless
    [length -= used] wraps around; [None] stands for that case, where the
    C loop runs past the end of the buffer. *)
Fixpoint count_loop (fuel : nat) (bytes : list Z) (length : Z) (points : nat)
  : option nat :=
  match fuel with
  | O => None
  | S f =>
    if 0 <? length then
      let used := utf8decode_size (Some bytes) in
      count_loop f (skipn (Z.to_nat used) bytes)
                 ((length - used) mod 2 ^ 64) (S points)
    else Some points
  end.

Definition count_code_points (bytes : list Z) (length : Z) : option nat :=
  count_loop (S (Z.to_nat length)) bytes length O.

(** The conversion loop of [decode]; [used] carries over between rounds. *)
Fixpoint decode_loop (n : nat) (bytes : list Z) (used : Z) : list Z :=
  match n with
  | O => []
  | S n' =>
    let '(v, used) := utf8decode_at used (Some bytes) in
    v :: decode_loop n' (skipn (Z.to_nat used) bytes) used
  end.

(** [decode]: the returned array ([*length] entries and the terminating
    zero) and what was written to [*length] ([None]: nothing). *)
Definition decode (bytes : option (list Z)) (bytelen : Z)
  : option (list Z * option nat) :=
  match bytes with
  | None => Some ([0], None)
  | Some b =>
    match count_code_points b bytelen with
    | None => None
    | Some n => Some (decode_loop n b 0 ++ [0], Some n)
    end
  end.

(** [xstr_decode]: [decode(value->cstr, value->length, length)].  It
    dereferences [value], so it is defined on a non-[NULL] string only.
    [value->cstr] is [NULL] for the string of [xstr_new], the one
    non-[NULL] string with no bytes; every other constructor stores a
    buffer of [length > 0] bytes.  So an empty [xcstr] stands for the
    [NULL] buffer, on which [decode] returns early. *)
Definition xstr_decode (value : xstring_) : option (list Z * option nat) :=
  decode (match xcstr value with [] => None | _ => Some (xcstr value) end)
         (Z.of_nat (xlength value)).

(** [mstr_decode]: [decode(mstr_cstr(value), mstr_length(value), length)]. *)
Definition mstr_decode (junk : nat -> Z) (value : mstring)
  : option (list Z * option nat) :=
  decode (Some (mstr_cstr junk value)) (Z.of_nat (mstr_length value)).

(** The loop of [count_bytes]: [value] is the array of [length] code
    points; [None] stands for a read past its end. *)
Fixpoint count_bytes_loop (fuel : nat) (value : list Z) (bytecount length : nat)
  : option nat :=
  match fuel with
  | O => None
  | S f =>
    if (bytecount <? length)%nat then
      match value with
      | [] => None
      | v :: rest =>
        count_bytes_loop f rest (bytecount + Z.to_nat (utf8encode_size v)) length
      end
    else Some bytecount
  end.

Definition count_bytes (value : option (list Z)) (length : nat) : option nat :=
  match value with
  | None => Some O
  | Some v => count_bytes_loop (S (List.length v)) v O length
  end.

(** The number of bytes [utf8encode_size] gives a sequence of code points. *)
Definition utf8_size (cps : list Z) : nat :=
  list_sum (map (fun cp => Z.to_nat (utf8encode_size cp)) cps).

(** The bytes an immutable string holds, and its well-formedness: the
    array holds [length] bytes (the library's invariant). *)
Definition xstr_contents (value : xstring) : list Z :=
  match value with None => [] | Some v => firstn (xlength v) (xcstr v) end.

Definition xstr_ok (value : xstring) : Prop :=
  match value with None => True | Some v => List.length (xcstr v) = xlength v end.

(** The bytes a block chain holds, block by block. *)
Definition mstr_bytes (value : mstring) : list Z :=
  flat_map (fun b => map (cstr b) (seq 0 (local_length b))) value.

(** [char] signed, as on x86 and most ABIs. *)
Definition signed_char (b : Z) : Z := if b <? 128 then b else b - 256.

(** A position of [mstr_strcmp]'s walk, the bytes from it to the end of
    the chain, and what the walk keeps of it. *)
Definition rem (p : mpos) : list Z :=
  let '(c, ll, off) := p in
  match c with
  | [] => []
  | b :: rest => map (cstr b) (seq off ll) ++ mstr_bytes rest
  end.

Definition in_block (p : mpos) : Prop :=
  let '(c, ll, off) := p in
  match c with [] => True | b :: _ => (off + ll = local_length b)%nat end.

Definition at_byte (p : mpos) : Prop :=
  let '(c, ll, off) := p in
  match c with [] => True | b :: _ => (0 < ll /\ off + ll = local_length b)%nat end.

Definition chain_ab : mstring :=
  [{| cstr := fun i => nth i [97] 0; local_capacity := 1; local_length := 1;
      length := 2 |};
   {| cstr := fun _ => 0; local_capacity := 0; local_length := 0;
      length := 1 |};
   {| cstr := fun i => nth i [98] 0; local_capacity := 64; local_length := 1;
      length := 1 |}].

Definition chain_ac : mstring :=
  [{| cstr := fun i => nth i [97; 99] 0; local_capacity := 64;
      local_length := 2; length := 2 |}].

End XString.

(* ================================================================== *)
(** ** The stream parser ([parser.c]) *)
(* ================================================================== *)

Module Parser.

(** [#define SPSPS_LOOK (4096)]. *)
Definition SPSPS_LOOK : nat := 4096.

(** [SPSPS_CHAR] is [char]; a character is held as its byte [0..255].
    [SPSPS_EOF] is [(char) -1], the byte [0xFF]. *)
Definition SPSPS_EOF : Z := 255.

Inductive spsps_errno := OK | LOOKAHEAD_TOO_LARGE | STALLED_AT_EOF | STALLED.

(** [uint16_t] and [uint32_t] arithmetic. *)
Definition u16 (x : Z) : Z := x mod 65536.
Definition u32 (x : Z) : Z := x mod 4294967296.

(** [struct spsps_parser_]; [block] is the block index [0]/[1] as
    [false]/[true], [blocks b i] is [blocks[b][i]], and [stream] is what
    is left to read from the [FILE *]. *)
Record parser := {
  at_eof : bool;
  block : bool;
  blocks : bool -> nat -> Z;
  eof_count : Z;
  look_count : Z;
  name : string;
  next : nat;
  stream : list Z;
  column : Z;
  line : Z;
  errno : spsps_errno
}.

Definition set_errno (p : parser) (e : spsps_errno) : parser :=
  {| at_eof := at_eof p; block := block p; blocks := blocks p;
     eof_count := eof_count p; look_count := look_count p; name := name p;
     next := next p; stream := stream p; column := column p; line := line p;
     errno := e |}.

Definition set_look_count (p : parser) (n : Z) : parser :=
  {| at_eof := at_eof p; block := block p; blocks := blocks p;
     eof_count := eof_count p; look_count := n; name := name p;
     next := next p; stream := stream p; column := column p; line := line p;
     errno := errno p |}.

Definition set_eof_count (p : parser) (n : Z) : parser :=
  {| at_eof := at_eof p; block := block p; blocks := blocks p;
     eof_count := n; look_count := look_count p; name := name p;
     next := next p; stream := stream p; column := column p; line := line p;
     errno := errno p |}.

Definition set_at_eof (p : parser) (b : bool) : parser :=
  {| at_eof := b; block := block p; blocks := blocks p;
     eof_count := eof_count p; look_count := look_count p; name := name p;
     next := next p; stream := stream p; column := column p; line := line p;
     errno := errno p |}.

(** [blocks[block][next]]: the byte under the cursor. *)
Definition cur (p : parser) : Z := blocks p (block p) (next p).

(** The byte [n] places ahead, read across the two blocks as in
    [spsps_look_]. *)
Definition look_byte (p : parser) (n : nat) : Z :=
  if (n + next p <? SPSPS_LOOK)%nat then blocks p (block p) (n + next p)
  else blocks p (negb (block p)) (n + next p - SPSPS_LOOK).

(** [spsps_look_]: returns the character and the updated parser. *)
Definition spsps_look_ (p : parser) (n : nat) : Z * parser :=
  if (SPSPS_LOOK <=? n)%nat then (0, set_errno p LOOKAHEAD_TOO_LARGE)
  else
    let p := set_look_count p (u16 (look_count p + 1)) in
    if 1000 <? look_count p then (SPSPS_EOF, set_errno p STALLED)
    else (look_byte p n, p).

(** [spsps_read_other_]: [fread] up to [SPSPS_LOOK] bytes into the other
    block and pad a short read with [SPSPS_EOF]. *)
Definition spsps_read_other_ (p : parser) : parser :=
  let other := negb (block p) in
  {| at_eof := at_eof p; block := block p;
     blocks := fun b i =>
       if Bool.eqb b other && (i <? SPSPS_LOOK)%nat
       then nth i (stream p) SPSPS_EOF else blocks p b i;
     eof_count := eof_count p; look_count := look_count p; name := name p;
     next := next p; stream := skipn SPSPS_LOOK (stream p);
     column := column p; line := line p; errno := errno p |}.

(** [spsps_new]: the blocks are [malloc]ed and not filled; [junk] is
    their initial contents.  A [NULL] name becomes ["(unknown)"]. *)
Definition spsps_new (nm : option string) (s : list Z)
  (junk : bool -> nat -> Z) : parser :=
  {| at_eof := false; block := false; blocks := junk; eof_count := 0;
     look_count := 0;
     name := match nm with Some n => n | None => "(unknown)"%string end;
     next := 0; stream := s; column := 1; line := 1; errno := OK |}.

(** The body of the loop of [spsps_consume_n], once the byte under the
    cursor is known not to be [SPSPS_EOF]. *)
Definition consume_step (p : parser) : parser :=
  let col := u32 (column p + 1) in
  let '(ln, col) := if cur p =? 10 then (u32 (line p + 1), 1)
                    else (line p, col) in
  let nx := S (next p) in
  let wrap := (SPSPS_LOOK <=? nx)%nat in
  let p' :=
    {| at_eof := at_eof p; block := if wrap then negb (block p) else block p;
       blocks := blocks p; eof_count := eof_count p;
       look_count := look_count p; name := name p;
       next := if wrap then (nx - SPSPS_LOOK)%nat else nx;
       stream := stream p; column := col; line := ln; errno := errno p |} in
  if wrap then spsps_read_other_ p' else p'.

(** [for (count = 0; count < n; ++count)] of [spsps_consume_n]. *)
Fixpoint consume_loop (n : nat) (p : parser) : parser :=
  match n with
  | O => p
  | S n' =>
    if cur p =? SPSPS_EOF then set_at_eof p true
    else consume_loop n' (consume_step p)
  end.

Definition spsps_consume_n (p : parser) (n : nat) : parser :=
  if (SPSPS_LOOK <=? n)%nat then set_errno p LOOKAHEAD_TOO_LARGE
  else
    let p := set_look_count (set_errno p OK) 0 in
    if at_eof p then
      let p := set_eof_count p (u16 (eof_count p + 1)) in
      if 1000 <? eof_count p then set_errno p STALLED_AT_EOF
      else consume_loop n p
    else consume_loop n p.

(** [spsps_consume]: the character under the cursor, then [consume_n(1)],
    then [errno = OK]. *)
Definition spsps_consume (p : parser) : Z * parser :=
  let ch := cur p in
  (ch, set_errno (spsps_consume_n p 1) OK).

Definition spsps_peek (p : parser) : Z * parser :=
  spsps_look_ (set_errno p OK) 0.

(** [strchr(" \t\r\n", c) != NULL]; [strchr] also finds the terminating
    NUL of the string it searches. *)
Definition strchr_ws (c : Z) : bool :=
  existsb (Z.eqb c) [32; 9; 13; 10; 0].

(** [spsps_consume_whitespace]: the [while] loop, run for at most [fuel]
    iterations; [None] when the bound is reached before it exits. *)
Fixpoint spsps_consume_whitespace (fuel : nat) (p : parser) : option parser :=
  match fuel with
  | O => None
  | S f =>
    let '(c, p) := spsps_peek p in
    if strchr_ws c then spsps_consume_whitespace f (snd (spsps_consume p))
    else Some (set_errno p OK)
  end.

Record Loc := { loc_name : string; loc_line : Z; loc_column : Z }.

Definition spsps_loc (p : parser) : Loc * parser :=
  ({| loc_name := name p; loc_line := line p; loc_column := column p |},
   set_errno p OK).

(** The [for] loop of [spsps_peek_str], from [index]. *)
Fixpoint peek_str_loop (needle : list Z) (index : nat) (p : parser)
  : bool * parser :=
  match needle with
  | [] => (true, p)
  | c :: rest =>
    let '(x, p) := spsps_look_ p index in
    if negb (c =? x) then (false, p) else peek_str_loop rest (S index) p
  end.

Definition spsps_peek_str (p : parser) (nxt : list Z) : bool * parser :=
  let n := XString.strlen nxt in
  if (SPSPS_LOOK <=? n)%nat then (false, set_errno p LOOKAHEAD_TOO_LARGE)
  else peek_str_loop (firstn n nxt) 0 (set_errno p OK).

Definition spsps_peek_and_consume (p : parser) (nxt : list Z)
  : bool * parser :=
  let p := set_errno p OK in
  let '(b, p) := spsps_peek_str p nxt in
  if b then (true, spsps_consume_n p (XString.strlen nxt)) else (false, p).

(** Repeated [spsps_consume] calls. *)
Fixpoint consume_times (k : nat) (p : parser) : parser :=
  match k with
  | O => p
  | S k' => consume_times k' (snd (spsps_consume p))
  end.

(** A parser whose active block holds [bytes] padded with [SPSPS_EOF],
    i.e. the state right after a first fill of block 0. *)
Definition filled_parser (bytes : list Z) (lc : Z) : parser :=
  {| at_eof := false; block := false;
     blocks := fun b i => if b then SPSPS_EOF else nth i bytes SPSPS_EOF;
     eof_count := 0; look_count := lc; name := "input"%string; next := 0;
     stream := []; column := 1; line := 1; errno := OK |}.

(** What the position should become after consuming [bytes]: the line
    grows and the column restarts at 1 on a newline, the column grows on
    any other byte. *)
Fixpoint track (lc : Z * Z) (bytes : list Z) : Z * Z :=
  match bytes with
  | [] => lc
  | b :: rest =>
    let '(l, c) := lc in
    track (if b =? 10 then (u32 (l + 1), 1) else (l, u32 (c + 1))) rest
  end.

(** The whitespace set of the spec. *)
Definition ws_byte (c : Z) : bool := existsb (Z.eqb c) [32; 9; 13; 10].

(** Everything in the parser but the look counter and the error code. *)
Definition frame (p : parser) :=
  (at_eof p, block p, blocks p, eof_count p, name p, next p, stream p,
   column p, line p).

(** [q] is reached from [p] by consuming whitespace bytes one at a time. *)
Inductive ws_run : parser -> parser -> Prop :=
| ws_stop (p q : parser) : frame p = frame q -> ws_run p q
| ws_skip (p q : parser) :
    ws_byte (cur p) = true -> ws_run (snd (spsps_consume p)) q -> ws_run p q.

(** Neither the blocks nor the rest of the stream hold a NUL byte. *)
Definition no_nul (p : parser) : Prop :=
  (forall b i, blocks p b i <> 0) /\ Forall (fun c => c <> 0) (stream p).

(** The stream position: block, cursor, line and column. *)
Definition pos (p : parser) := (block p, next p, line p, column p).

Definition spsps_eof (p : parser) : bool * parser := (at_eof p, set_errno p OK).

(** The [for] loop of [spsps_peek_n], from [index]. *)
Fixpoint peek_n_loop (k index : nat) (p : parser) : list Z * parser :=
  match k with
  | O => ([], p)
  | S k' =>
    let '(c, p) := spsps_look_ p index in
    let '(rest, p) := peek_n_loop k' (S index) p in
    (c :: rest, p)
  end.

(** [spsps_peek_n]: the [n] bytes of the returned buffer; the too-large
    case returns the literal [""], a single NUL byte. *)
Definition spsps_peek_n (p : parser) (n : nat) : list Z * parser :=
  if (SPSPS_LOOK <=? n)%nat then ([0], set_errno p LOOKAHEAD_TOO_LARGE)
  else peek_n_loop n 0 (set_errno p OK).

(** A parser whose cursor is on the last byte of block 0. *)
Definition at_block_end : parser :=
  {| at_eof := false; block := false;
     blocks := fun b i => if b then 66 else 65;
     eof_count := 0; look_count := 0; name := "input"%string;
     next := 4095; stream := [1; 2; 3]; column := 1; line := 1; errno := OK |}.

End Parser.

(* ================================================================== *)
(** ** Facts about the codec *)
(* ================================================================== *)

Module UTF8Facts.
Import UTF8.

(** Disjoint bit ranges: or-ing a multiple of [2^k] with a value below
    [2^k] is an addition. *)
Lemma lor_low_add (k x b : Z) :
  0 <= k -> x mod 2 ^ k = 0 -> 0 <= b < 2 ^ k -> Z.lor x b = x + b.
Proof.
  intros Hk Hx Hb.
  assert (Hland : Z.land x b = 0).
  { apply Z.bits_inj'; intros i Hi.
    rewrite Z.land_spec, Z.bits_0.
    destruct (Z.lt_ge_cases i k) as [Hlt | Hge].
    - rewrite <- (Z.mod_pow2_bits_low x k i Hlt), Hx, Z.bits_0. reflexivity.
    - rewrite <- (Z.mod_small b (2 ^ k) Hb).
      rewrite (Z.mod_pow2_bits_high b k i); [apply andb_false_r | lia]. }
  rewrite <- Z.lxor_lor by exact Hland.
  rewrite Z.add_nocarry_lxor by exact Hland. reflexivity.
Qed.

Lemma land_ones_mod (x : Z) (n : Z) :
  0 <= n -> Z.land x (2 ^ n - 1) = x mod 2 ^ n.
Proof.
  intros Hn. rewrite <- Z.land_ones by exact Hn.
  rewrite Z.ones_equiv. reflexivity.
Qed.

Lemma land63 (x : Z) : Z.land x 0x3f = x mod 64.
Proof. apply (land_ones_mod x 6). lia. Qed.

Lemma land31 (x : Z) : Z.land x 0x1F = x mod 32.
Proof. apply (land_ones_mod x 5). lia. Qed.

Lemma land7 (x : Z) : Z.land x 0x07 = x mod 8.
Proof. apply (land_ones_mod x 3). lia. Qed.

Lemma u8_mod (x : Z) : u8 x = x mod 256.
Proof. apply (land_ones_mod x 8). lia. Qed.

(** Every byte of the form [10xxxxxx] passes the framing test. *)
Lemma cont_check :
  forallb (fun b => negb (not_cont b)) (map Z.of_nat (seq 128 64)) = true.
Proof. vm_compute. reflexivity. Qed.

Lemma not_cont_cont (b : Z) : 128 <= b < 192 -> not_cont b = false.
Proof.
  intros Hb.
  pose proof cont_check as H. rewrite forallb_forall in H.
  specialize (H b). rewrite negb_true_iff in H. apply H.
  apply in_map_iff. exists (Z.to_nat b). split; [lia|].
  apply in_seq. lia.
Qed.

Ltac to_arith :=
  rewrite ?u8_mod, ?land63, ?land31, ?land7,
    ?Z.shiftr_div_pow2, ?Z.shiftl_mul_pow2 by lia.

(** Evaluate the literal powers of two left by the shift lemmas. *)
Ltac eval_pow2 :=
  repeat match goal with
  | |- context [2 ^ ?k] =>
      let v := eval vm_compute in (2 ^ k) in change (2 ^ k) with v
  end.

Ltac arith := eval_pow2; Z.div_mod_to_equations; lia.

(** Settle every comparison and framing test of the decoder. *)
Ltac settle_tests :=
  repeat match goal with
  | |- context [?a <? ?b] =>
      first [ rewrite (proj2 (Z.ltb_lt a b)) by arith
            | rewrite (proj2 (Z.ltb_ge a b)) by arith ]
  | |- context [not_cont ?b] => rewrite (not_cont_cont b) by arith
  end.

Theorem utf8_roundtrip (cp : Z) (Hcp : 0 <= cp) :
  (cp < 0x110000 ->
   utf8decode (Some (fst (utf8encode cp))) = (cp, snd (utf8encode cp))) /\
  (0x110000 <= cp -> snd (utf8encode cp) = 0).
Proof.
  split.
  - intros Hlt. unfold utf8encode.
    destruct (cp <? 0x80) eqn:E1; [|destruct (cp <? 0x800) eqn:E2;
      [|destruct (cp <? 0x1000) eqn:E3; [|destruct (cp <? 0x110000) eqn:E4]]];
      rewrite ?Z.ltb_lt, ?Z.ltb_ge in *; try lia;
      unfold utf8decode, byte_at; cbn [fst snd nth]; to_arith; settle_tests.
    + f_equal. arith.
    + rewrite (lor_low_add 6) by arith. f_equal. arith.
    + rewrite (lor_low_add 12 (_ * 2 ^ 12)), (lor_low_add 6 (_ + _)) by arith.
      f_equal. arith.
    + rewrite (lor_low_add 18 (_ * 2 ^ 18)), (lor_low_add 12 (_ + _)),
        (lor_low_add 6 (_ + _)) by arith.
      f_equal. arith.
  - intros Hge. unfold utf8encode.
    rewrite !(proj2 (Z.ltb_ge _ _)) by lia. reflexivity.
Qed.

Lemma utf8_roundtrip_witness :
  (0 <= 0x20AC) /\
  utf8decode (Some (fst (utf8encode 0x20AC))) = (0x20AC, snd (utf8encode 0x20AC)).
Proof.
  split; [lia|]. apply (proj1 (utf8_roundtrip 0x20AC ltac:(lia))). lia.
Defined.

(** C2 (code_bug): the three-byte branch of [utf8encode] and of
    [utf8encode_size] tests [code_point < 0x1000] instead of the RFC 3629
    bound [0x10000]; at U+1000 both report four bytes, not three. *)
Theorem utf8encode_U1000_four_bytes :
  fst (utf8encode 0x1000) = [0xF0; 0x81; 0x80; 0x80; 0; 0; 0] /\
  snd (utf8encode 0x1000) = 4 /\ utf8encode_size 0x1000 = 4.
Proof. vm_compute. repeat split. Qed.

(** The two size functions agree everywhere. *)
Lemma utf8encode_size_agrees (cp : Z) :
  utf8encode_size cp = snd (utf8encode cp).
Proof.
  unfold utf8encode_size, utf8encode.
  destruct (cp <? 0x80), (cp <? 0x800), (cp <? 0x1000), (cp <? 0x110000);
    reflexivity.
Qed.

(** C8: an invalid leading byte in [[0x80, 0xC0)] makes [utf8decode]
    return the bad-byte sentinel [0xDC00 | b] with [used = 0], while
    [utf8decode_size] reports one byte for the same input. *)
Theorem decode_bad_lead_asymmetry (input : list Z) :
  0x80 <= byte_at input 0 < 0xC0 ->
  utf8decode (Some input) = (Z.lor 0xDC00 (byte_at input 0), 0) /\
  utf8decode_size (Some input) = 1.
Proof.
  intros Hb. unfold utf8decode, utf8decode_size. cbv zeta.
  rewrite (proj2 (Z.ltb_ge (byte_at input 0) 0x80)) by lia.
  rewrite (proj2 (Z.ltb_lt (byte_at input 0) 0xC0)) by lia.
  split; reflexivity.
Qed.

Lemma decode_bad_lead_asymmetry_witness :
  (0x80 <= byte_at [0xA9; 0x41] 0 < 0xC0) /\
  utf8decode (Some [0xA9; 0x41]) = (Z.lor 0xDC00 (byte_at [0xA9; 0x41] 0), 0) /\
  utf8decode_size (Some [0xA9; 0x41]) = 1.
Proof.
  split; [cbn; lia|].
  apply decode_bad_lead_asymmetry. cbn; lia.
Defined.

End UTF8Facts.

(* ================================================================== *)
(** ** Facts about the strings *)
(* ================================================================== *)

Module XStringFacts.
Import UTF8 XString.

(** C10: appending the code point 0 is a no-op on both kinds of string,
    because the encoded character is measured with [strlen]. *)
Theorem append_nul_noop :
  (forall v : xstring, xstr_append v 0 = v) /\
  (forall (junk : nat -> Z) (m : mstring), mstr_append junk m 0 = m).
Proof.
  split.
  - intros [v|]; reflexivity.
  - intros junk [|b m]; reflexivity.
Qed.

Lemma strlen_skipn (s : list Z) (k : nat) :
  (k <= strlen s)%nat -> strlen (skipn k s) = (strlen s - k)%nat.
Proof.
  revert k; induction s as [|c s IH]; intros k Hk; simpl in *.
  - destruct k; reflexivity.
  - destruct (c =? 0) eqn:Ec.
    + assert (k = O) by lia. subst. simpl. rewrite Ec. reflexivity.
    + destruct k as [|k]; simpl; [rewrite Ec; reflexivity|].
      apply IH. lia.
Qed.

Lemma abl_cons (b : mstring_) (l : mstring) :
  all_but_last_full (b :: l) <->
  ((l = [] \/ local_length b = local_capacity b) /\ all_but_last_full l).
Proof.
  destruct l as [|b' l]; simpl; intuition congruence.
Qed.

Lemma sum_used_app (l1 l2 : mstring) :
  sum_used (l1 ++ l2) = (sum_used l1 + sum_used l2)%nat.
Proof. induction l1; simpl; lia. Qed.

Lemma sum_used_cons (b : mstring_) (l : mstring) :
  sum_used (b :: l) = (local_length b + sum_used l)%nat.
Proof. reflexivity. Qed.

Section Chain.
Variable junk : nat -> Z.

Lemma wrap_props (s : list Z) :
  mstr_length (mstr_wrap junk s) = strlen s /\
  sum_used (mstr_wrap junk s) = strlen s /\
  mstr_inv (mstr_wrap junk s) /\
  (mstr_wrap junk s = [] <-> strlen s = O).
Proof.
  unfold mstr_wrap, mstr_inv, mstr_new_block, MSTR_INC.
  destruct (strlen s =? 0)%nat eqn:E.
  - apply Nat.eqb_eq in E. rewrite E. simpl. intuition.
  - apply Nat.eqb_neq in E.
    destruct (strlen s + 64 =? 0)%nat eqn:E2; [apply Nat.eqb_eq in E2; lia|].
    simpl. repeat split; try lia; try discriminate.
    constructor; [simpl; lia | constructor].
Qed.

Lemma append_chain_props (len : nat) (src : list Z) (value : mstring) :
  value <> [] -> (0 < len)%nat -> len = strlen src ->
  all_but_last_full value ->
  Forall (fun b => (local_length b <= local_capacity b)%nat) value ->
  let r := append_chain junk len src value in
  mstr_length r = (mstr_length value + len)%nat /\
  sum_used r = (sum_used value + len)%nat /\
  all_but_last_full r /\
  Forall (fun b => (local_length b <= local_capacity b)%nat) r.
Proof.
  intros Hne Hlen Hsrc.
  induction value as [|here rest IH]; [congruence|].
  intros Hfull Hcap. inversion Hcap as [|? ? Hhere Hrest]; subst.
  destruct rest as [|b rest].
  - (* [here] is the last block *)
    cbv zeta. simpl append_chain. cbv zeta.
    unfold set_length; simpl local_capacity; simpl local_length; simpl length.
    set (excess := (local_capacity here - local_length here)%nat).
    destruct (strlen src <=? excess)%nat eqn:Efit.
    + apply Nat.leb_le in Efit. simpl.
      repeat split; try lia.
      constructor; [simpl; lia | constructor].
    + apply Nat.leb_gt in Efit.
      pose proof (strlen_skipn src excess ltac:(lia)) as Hsk.
      destruct (wrap_props (skipn excess src)) as (Hl & Hs & (_ & Hwf & Hwc) & Hnil).
      destruct (wrap_props src) as (Hl' & Hs' & (_ & Hwf' & Hwc') & Hnil').
      destruct (0 <? excess)%nat eqn:Eex.
      * apply Nat.ltb_lt in Eex. cbn -[all_but_last_full mstr_wrap skipn].
        unfold sum_used in Hs. rewrite Hs, Hsk. repeat split; try lia.
        -- apply (proj2 (abl_cons _ _)). split; [right; simpl; lia | exact Hwf].
        -- constructor; [simpl; lia | exact Hwc].
      * apply Nat.ltb_ge in Eex. cbn -[all_but_last_full mstr_wrap skipn].
        unfold sum_used in Hs'. rewrite Hs'. repeat split; try lia.
        -- apply (proj2 (abl_cons _ _)). split; [right; simpl; lia | exact Hwf'].
        -- constructor; [simpl; lia | exact Hwc'].
  - (* walk past [here] *)
    apply abl_cons in Hfull as [[Hc | Hfullhere] Hfull]; [discriminate|].
    destruct (IH ltac:(discriminate) Hfull Hrest) as (IHl & IHs & IHf & IHc).
    change (append_chain junk (strlen src) src (here :: b :: rest))
      with (set_length here (length here + strlen src)
              :: append_chain junk (strlen src) src (b :: rest)).
    rewrite !sum_used_cons in *.
    repeat split.
    + rewrite sum_used_cons. cbn [local_length set_length]. lia.
    + apply (proj2 (abl_cons _ _)). split; [right; exact Hfullhere | exact IHf].
    + constructor; [simpl; lia | exact IHc].
Qed.

Lemma concat_chain_props (first second : mstring) :
  first <> [] -> second <> [] ->
  all_but_last_full first -> all_but_last_full second ->
  Forall (fun b => (local_length b <= local_capacity b)%nat) first ->
  Forall (fun b => (local_length b <= local_capacity b)%nat) second ->
  let r := concat_chain (mstr_length second) first second in
  mstr_length r = (mstr_length first + mstr_length second)%nat /\
  sum_used r = (sum_used first + sum_used second)%nat /\
  all_but_last_full r /\
  Forall (fun b => (local_length b <= local_capacity b)%nat) r.
Proof.
  intros Hne Hne2 Hf1 Hf2 Hc1 Hc2.
  induction first as [|here rest IH]; [congruence|].
  inversion Hc1 as [|? ? Hhere Hrest]; subst.
  destruct rest as [|b rest].
  - destruct second as [|s0 srest]; [congruence|].
    cbn zeta. cbn [concat_chain].
    split; [cbn; lia|].
    split.
    { rewrite (sum_used_cons _ (s0 :: srest)), (sum_used_cons here []).
      cbn [local_length sum_used fold_right]. lia. }
    split; [exact (conj eq_refl Hf2)|].
    constructor; [cbn; lia | exact Hc2].
  - apply abl_cons in Hf1 as [[Hc | Hfullhere] Hf1]; [discriminate|].
    destruct (IH ltac:(discriminate) Hf1 Hrest) as (IHl & IHs & IHf & IHc).
    change (concat_chain (mstr_length second) (here :: b :: rest) second)
      with (set_length here (length here + mstr_length second)
              :: concat_chain (mstr_length second) (b :: rest) second).
    rewrite !sum_used_cons in *.
    repeat split.
    + rewrite sum_used_cons. cbn [local_length set_length]. lia.
    + apply (proj2 (abl_cons _ _)). split; [right; exact Hfullhere | exact IHf].
    + constructor; [simpl; lia | exact IHc].
Qed.

End Chain.

(** C9: the chain invariant (the stored total length is the sum of the
    used lengths, every block but the last is full, and no block is used
    beyond its capacity) holds for [mstr_new], [mstr_wrap] and [mstr_copy]
    and is preserved by [mstr_append_cstr], [mstr_append] and
    [mstr_concat]. *)
Theorem mstr_ops_preserve_inv (junk : nat -> Z) (a b : mstring)
  (Ha : mstr_inv a) (Hb : mstr_inv b) (capacity : nat) (s : list Z) (ch : Z) :
  mstr_inv (mstr_new junk capacity) /\
  mstr_inv (mstr_wrap junk s) /\
  mstr_inv (mstr_copy junk a) /\
  mstr_inv (mstr_append_cstr junk a s) /\
  mstr_inv (mstr_append junk a ch) /\
  mstr_inv (mstr_concat a b).
Proof.
  assert (Happ : forall src, mstr_inv (mstr_append_cstr junk a src)).
  { intros src. destruct a as [|here rest].
    - apply wrap_props.
    - unfold mstr_append_cstr. cbv beta iota zeta.
      destruct (strlen src =? 0)%nat eqn:E; [exact Ha|].
      apply Nat.eqb_neq in E. destruct Ha as (Hl & Hf & Hc).
      destruct (append_chain_props junk (strlen src) src (here :: rest)
                  ltac:(discriminate) ltac:(lia) eq_refl Hf Hc)
        as (Rl & Rs & Rf & Rc).
      split; [lia | split; assumption]. }
  split; [|split; [|split; [|split; [|split]]]].
  - unfold mstr_inv, mstr_new. cbn. split; [reflexivity|split; [exact I|]].
    constructor; [apply Nat.le_0_l | constructor].
  - apply wrap_props.
  - unfold mstr_copy, mstr_new_block, MSTR_INC.
    destruct (mstr_length a =? 0)%nat eqn:E; [split; [reflexivity | split; constructor]|].
    destruct (mstr_length a + 64 =? 0)%nat eqn:E2;
      [apply Nat.eqb_eq in E2; lia|].
    unfold mstr_inv. cbn. split; [lia|split; [exact I|]].
    constructor; [cbn; lia | constructor].
  - apply Happ.
  - apply Happ.
  - unfold mstr_concat.
    destruct b as [|b0 brest]; [exact Ha|].
    destruct a as [|a0 arest]; [exact Hb|].
    cbv beta iota.
    destruct Ha as (Hal & Haf & Hac). destruct Hb as (Hbl & Hbf & Hbc).
    destruct (concat_chain_props (a0 :: arest) (b0 :: brest)
                ltac:(discriminate) ltac:(discriminate) Haf Hbf Hac Hbc)
      as (Rl & Rs & Rf & Rc).
    split; [lia | split; assumption].
Qed.

Lemma mstr_ops_preserve_inv_witness :
  mstr_inv (mstr_wrap (fun _ => 0) [65; 66]) /\
  mstr_inv (mstr_new (fun _ => 0) 0) /\
  mstr_inv (mstr_concat (mstr_append (fun _ => 0) (mstr_wrap (fun _ => 0) [65; 66]) 0xE9)
                        (mstr_new (fun _ => 0) 0)).
Proof.
  assert (H1 : mstr_inv (mstr_wrap (fun _ => 0) [65; 66])).
  { unfold mstr_inv. cbn. split; [reflexivity | split; [exact I|]].
    constructor; [apply Nat.leb_le; reflexivity | constructor]. }
  assert (H2 : mstr_inv (mstr_new (fun _ => 0) 0)).
  { unfold mstr_inv. cbn. split; [reflexivity | split; [exact I|]].
    constructor; [apply Nat.leb_le; reflexivity | constructor]. }
  split; [exact H1|split; [exact H2|]].
  destruct (mstr_ops_preserve_inv (fun _ => 0) (mstr_wrap (fun _ => 0) [65; 66])
              (mstr_new (fun _ => 0) 0) H1 H2 0 [] 0xE9)
    as (_ & _ & _ & _ & Happ & _).
  destruct (mstr_ops_preserve_inv (fun _ => 0)
              (mstr_append (fun _ => 0) (mstr_wrap (fun _ => 0) [65; 66]) 0xE9)
              (mstr_new (fun _ => 0) 0) Happ H2 0 [] 0)
    as (_ & _ & _ & _ & _ & Hcat).
  exact Hcat.
Defined.

(** C1 (code_bug): when an append does not fit in the last block but the
    block still has room, [mstr_append_cstr] bumps [local_length] before
    the [memcpy], so the leading bytes are written past the capacity and
    the block keeps whatever the fresh memory held.  Appending U+00E9 to a
    one-byte block gives [junk 0; 0xA9] instead of [0xC3; 0xA9]. *)
Theorem mstr_append_split_loses_bytes (junk : nat -> Z) :
  mstr_cstr junk (mstr_append junk (mstr_new junk 1) 0xE9) = [junk O; 0xA9; 0] /\
  encode_all [0xE9] = [0xC3; 0xA9].
Proof. split; vm_compute; reflexivity. Qed.

(** The scenario of the spec: sixty U+0800 appended to the empty string
    need three blocks, and the result is not the direct encoding. *)
Lemma mstr_append_three_blocks :
  let m := fold_left (mstr_append (fun _ => 0)) (repeat 0x800 60) [] in
  List.length m = 3%nat /\
  mstr_cstr (fun _ => 0) m <> encode_all (repeat 0x800 60) ++ [0].
Proof. vm_compute. split; [reflexivity | discriminate]. Qed.

End XStringFacts.

(* ================================================================== *)
(** ** Facts about the parser *)
(* ================================================================== *)

Module ParserFacts.
Import Parser.

(** Split every conditional of the goal. *)
Ltac split_ifs :=
  repeat match goal with
  | |- context [if ?c then _ else _] => destruct c eqn:?
  end.

(** [spsps_consume] always leaves [OK] in the error field. *)
Lemma consume_errno_ok (p : parser) : errno (snd (spsps_consume p)) = OK.
Proof. reflexivity. Qed.

(** C5 (code_bug): at the 1001st consume past the end of file,
    [spsps_consume_n] records [STALLED_AT_EOF], but [spsps_consume], which
    calls it, overwrites the error field with [OK] before returning. *)
Theorem consume_clears_stalled_at_eof (p : parser) :
  at_eof p = true -> eof_count p = 1000 ->
  errno (spsps_consume_n p 1) = STALLED_AT_EOF /\
  eof_count (snd (spsps_consume p)) = 1001 /\
  errno (snd (spsps_consume p)) = OK.
Proof.
  intros He Hc.
  unfold spsps_consume, spsps_consume_n. simpl.
  rewrite He. simpl. rewrite Hc. simpl. repeat split.
Qed.

Lemma consume_clears_stalled_at_eof_witness :
  let p := set_eof_count (set_at_eof (filled_parser [] 0) true) 1000 in
  (at_eof p = true /\ eof_count p = 1000) /\
  errno (spsps_consume_n p 1) = STALLED_AT_EOF /\
  eof_count (snd (spsps_consume p)) = 1001 /\
  errno (snd (spsps_consume p)) = OK.
Proof.
  cbv zeta. split; [split; reflexivity|].
  apply consume_clears_stalled_at_eof; reflexivity.
Defined.

(** From a fresh end-of-file state, 1001 consumes leave [OK] behind. *)
Lemma consume_1001_at_eof :
  let q := consume_times 1001 (set_at_eof (filled_parser [] 0) true) in
  eof_count q = 1001 /\ errno q = OK.
Proof. vm_compute. split; reflexivity. Qed.

(** A consume that does not reach the end of the active block reads
    nothing from the stream and writes no block. *)
Lemma consume_no_wrap (p : parser) :
  (S (next p) < SPSPS_LOOK)%nat ->
  let q := snd (spsps_consume p) in
  stream q = stream p /\ blocks q = blocks p /\ (next q <= S (next p))%nat.
Proof.
  intros Hn. cbv zeta.
  unfold spsps_consume, spsps_consume_n, consume_loop, consume_step.
  cbn -[SPSPS_LOOK].
  destruct (SPSPS_LOOK <=? S (next p))%nat eqn:Ew;
    [apply Nat.leb_le in Ew; lia|].
  split_ifs; cbn -[SPSPS_LOOK]; repeat split; lia.
Qed.

Lemma consume_times_no_read (k : nat) (p : parser) :
  (next p + k < SPSPS_LOOK)%nat ->
  stream (consume_times k p) = stream p /\ blocks (consume_times k p) = blocks p.
Proof.
  revert p; induction k as [|k IH]; intros p Hk; [split; reflexivity|].
  cbn [consume_times]. destruct (consume_no_wrap p ltac:(lia)) as (Hs & Hb & Hn).
  destruct (IH (snd (spsps_consume p)) ltac:(lia)) as (Hs' & Hb').
  rewrite Hs', Hb', Hs, Hb. split; reflexivity.
Qed.

(** C6 (code_bug): [spsps_new] never fills block 0 and nothing else does
    before the cursor reaches the end of that block, so the first
    [SPSPS_LOOK] consumes read the uninitialised block, never the input.
    On input ["ab\ncd"] with a zeroed block the location after five
    consumes is line 1, column 6; had block 0 been filled with the input
    it would be line 2, column 3. *)
Theorem loc_after_five_consumes :
  (forall nm s junk,
     stream (consume_times 5 (spsps_new nm s junk)) = s /\
     blocks (consume_times 5 (spsps_new nm s junk)) = junk) /\
  (let p := consume_times 5
              (spsps_new (Some "input"%string) [97; 98; 10; 99; 100]
                         (fun _ _ => 0)) in
   (line p, column p) = (1, 6)) /\
  (let q := consume_times 5 (filled_parser [97; 98; 10; 99; 100] 0) in
   (line q, column q) = (2, 3)).
Proof.
  split; [|split; vm_compute; reflexivity].
  intros nm s junk. apply consume_times_no_read. simpl. unfold SPSPS_LOOK. lia.
Qed.

(** *** [spsps_consume_whitespace] *)

Lemma Forall_skipn_nat {A} (P : A -> Prop) (n : nat) (l : list A) :
  Forall P l -> Forall P (skipn n l).
Proof.
  revert l; induction n as [|n IH]; intros l Hl; [exact Hl|].
  destruct l as [|x l]; [constructor|]. inversion Hl; subst. apply IH; assumption.
Qed.

Lemma nth_no_nul (l : list Z) (i : nat) :
  Forall (fun c => c <> 0) l -> nth i l SPSPS_EOF <> 0.
Proof.
  intros Hl; revert i; induction Hl as [|x l Hx Hl IH]; intros i.
  - destruct i; discriminate.
  - destruct i; [exact Hx | apply IH].
Qed.

Lemma consume_step_inv (p : parser) :
  (next p < SPSPS_LOOK)%nat -> no_nul p ->
  (next (consume_step p) < SPSPS_LOOK)%nat /\ no_nul (consume_step p) /\
  look_count (consume_step p) = look_count p.
Proof.
  intros Hn [Hb Hs]. unfold consume_step.
  destruct (cur p =? 10);
  destruct (SPSPS_LOOK <=? S (next p))%nat eqn:Ew;
  cbn -[SPSPS_LOOK skipn nth Nat.sub].
  1, 3: apply Nat.leb_le in Ew;
     repeat split; [lia | | apply Forall_skipn_nat; exact Hs];
     intros b i; unfold spsps_read_other_; cbn [blocks block stream];
     match goal with |- (if ?c then _ else _) <> 0 => destruct c end;
     [apply nth_no_nul; exact Hs | apply Hb].
  all: apply Nat.leb_gt in Ew; repeat split; [lia | exact Hb | exact Hs].
Qed.

Lemma consume_loop_inv (n : nat) (p : parser) :
  (next p < SPSPS_LOOK)%nat -> no_nul p ->
  (next (consume_loop n p) < SPSPS_LOOK)%nat /\ no_nul (consume_loop n p) /\
  look_count (consume_loop n p) = look_count p.
Proof.
  revert p; induction n as [|n IH]; intros p Hn Hnn;
    [exact (conj Hn (conj Hnn eq_refl))|].
  cbn [consume_loop]. destruct (cur p =? SPSPS_EOF).
  - exact (conj Hn (conj Hnn eq_refl)).
  - destruct (consume_step_inv p Hn Hnn) as (Hn' & Hnn' & Hl').
    rewrite <- Hl'. apply IH; assumption.
Qed.

Lemma consume_inv (p : parser) :
  (next p < SPSPS_LOOK)%nat -> no_nul p ->
  (next (snd (spsps_consume p)) < SPSPS_LOOK)%nat /\
  no_nul (snd (spsps_consume p)) /\ look_count (snd (spsps_consume p)) = 0.
Proof.
  intros Hn Hnn. unfold spsps_consume, spsps_consume_n.
  cbn -[SPSPS_LOOK consume_loop u16].
  destruct (at_eof p); [destruct (1000 <? u16 (eof_count p + 1))|];
  cbn -[SPSPS_LOOK consume_loop u16];
  [exact (conj Hn (conj Hnn eq_refl)) | |];
  match goal with |- context [consume_loop 1 ?q] =>
    destruct (consume_loop_inv 1 q Hn Hnn) as (H1 & H2 & H3);
    refine (conj H1 (conj H2 _));
    change (look_count (consume_loop 1 q) = 0); rewrite H3; reflexivity
  end.
Qed.

Lemma frame_consume (p q : parser) :
  frame p = frame q -> snd (spsps_consume p) = snd (spsps_consume q).
Proof.
  destruct p, q; unfold frame; cbn. intros H; injection H; intros; subst.
  reflexivity.
Qed.

Lemma peek_ok (p : parser) :
  0 <= look_count p < 1000 -> (next p < SPSPS_LOOK)%nat ->
  spsps_peek p = (cur p, set_look_count (set_errno p OK) (look_count p + 1)).
Proof.
  intros Hl Hn. unfold spsps_peek, spsps_look_.
  replace (SPSPS_LOOK <=? 0)%nat with false by reflexivity.
  cbv zeta. cbn [look_count set_look_count set_errno]. unfold u16.
  rewrite (Z.mod_small (look_count p + 1) 65536) by lia.
  replace (1000 <? look_count p + 1) with false by (symmetry; apply Z.ltb_ge; lia).
  unfold look_byte. cbn [next block blocks set_look_count set_errno Nat.add].
  rewrite (proj2 (Nat.ltb_lt _ _) Hn). reflexivity.
Qed.

Lemma strchr_ws_ws (c : Z) : c <> 0 -> strchr_ws c = ws_byte c.
Proof.
  intros Hc. unfold strchr_ws, ws_byte. simpl.
  rewrite (proj2 (Z.eqb_neq c 0) Hc). reflexivity.
Qed.

Lemma peek_stall (p : parser) :
  1000 <= look_count p < 65535 ->
  spsps_peek p =
  (SPSPS_EOF, set_errno (set_look_count (set_errno p OK) (look_count p + 1)) STALLED).
Proof.
  intros Hl. unfold spsps_peek, spsps_look_.
  replace (SPSPS_LOOK <=? 0)%nat with false by reflexivity.
  cbv zeta. cbn [look_count set_look_count set_errno]. unfold u16.
  rewrite (Z.mod_small (look_count p + 1) 65536) by lia.
  rewrite (proj2 (Z.ltb_lt 1000 (look_count p + 1))) by lia. reflexivity.
Qed.

Lemma consume_next_no_wrap (p : parser) :
  at_eof p = false -> cur p <> SPSPS_EOF -> (S (next p) < SPSPS_LOOK)%nat ->
  next (snd (spsps_consume p)) = S (next p).
Proof.
  intros He Hc Hn. unfold spsps_consume, spsps_consume_n.
  cbn -[SPSPS_LOOK consume_step]. rewrite He.
  replace (SPSPS_LOOK <=? 1)%nat with false by reflexivity.
  change (blocks p (block p) (next p)) with (cur p).
  rewrite (proj2 (Z.eqb_neq _ _) Hc). unfold consume_step.
  cbn -[SPSPS_LOOK]. rewrite (proj2 (Nat.leb_gt _ _) Hn).
  split_ifs; reflexivity.
Qed.

(** C4 (code_bug): the loop breaks the claim in two ways.  With the look
    counter between 1000 and 65534 (a thousand looks without a consume,
    the [uint16_t] counter not about to wrap), [spsps_peek] reports the
    stall as [SPSPS_EOF]: the loop returns at once, nothing consumed, with
    a whitespace byte still under the cursor.  Below the stall limit a NUL
    byte passes the [strchr] test, which finds the terminator of
    [" \t\r\n"]: the loop consumes that NUL, a byte outside the
    whitespace set, and goes on. *)
Theorem consume_whitespace_stall_and_nul (fuel : nat) (p : parser) :
  (1000 <= look_count p < 65535 -> ws_byte (cur p) = true ->
   exists p', spsps_consume_whitespace (S fuel) p = Some p' /\
     frame p' = frame p /\ ws_byte (cur p') = true) /\
  (0 <= look_count p < 1000 -> at_eof p = false ->
   (S (next p) < SPSPS_LOOK)%nat -> cur p = 0 ->
   ws_byte (cur p) = false /\
   spsps_consume_whitespace (S fuel) p =
     spsps_consume_whitespace fuel (snd (spsps_consume p)) /\
   next (snd (spsps_consume p)) = S (next p)).
Proof.
  split.
  - intros Hl Hw. cbn [spsps_consume_whitespace]. rewrite (peek_stall p Hl).
    cbv beta iota. replace (strchr_ws SPSPS_EOF) with false by reflexivity.
    eexists; split; [reflexivity|].
    split; [destruct p; reflexivity | destruct p; exact Hw].
  - intros Hl He Hn Hc.
    split; [rewrite Hc; reflexivity|].
    split; [|apply consume_next_no_wrap;
             [exact He | rewrite Hc; discriminate | exact Hn]].
    cbn [spsps_consume_whitespace]. rewrite (peek_ok p Hl) by lia.
    cbv beta iota. rewrite Hc. replace (strchr_ws 0) with true by reflexivity.
    rewrite (frame_consume _ p) by reflexivity. reflexivity.
Qed.

Lemma consume_whitespace_stall_and_nul_witness :
  (exists p', spsps_consume_whitespace 3 (filled_parser [32; 97] 1000) = Some p' /\
     frame p' = frame (filled_parser [32; 97] 1000) /\ ws_byte (cur p') = true) /\
  (ws_byte (cur (filled_parser [0; 32; 97] 0)) = false /\
   spsps_consume_whitespace 3 (filled_parser [0; 32; 97] 0) =
     spsps_consume_whitespace 2 (snd (spsps_consume (filled_parser [0; 32; 97] 0))) /\
   next (snd (spsps_consume (filled_parser [0; 32; 97] 0))) = 1%nat).
Proof.
  split.
  - apply (proj1 (consume_whitespace_stall_and_nul 2 (filled_parser [32; 97] 1000)));
      [cbn; lia | reflexivity].
  - apply (proj2 (consume_whitespace_stall_and_nul 2 (filled_parser [0; 32; 97] 0)));
      [cbn; lia | reflexivity | apply Nat.ltb_lt; reflexivity | reflexivity].
Defined.

(** When the look counter is below the stall limit, the cursor is inside
    the active block and neither block nor the unread stream holds a NUL
    byte, [spsps_consume_whitespace] consumes a run of bytes of the set
    {space, tab, CR, LF}, one [spsps_consume] each, and stops on a byte
    outside that set (the end-of-file byte included). *)
Theorem consume_whitespace_no_nul_run (fuel : nat) (p p' : parser) :
  spsps_consume_whitespace fuel p = Some p' ->
  0 <= look_count p < 1000 -> (next p < SPSPS_LOOK)%nat -> no_nul p ->
  ws_run p p' /\ ws_byte (cur p') = false.
Proof.
  revert p; induction fuel as [|fuel IH]; intros p H Hl Hn Hnn;
    [discriminate|].
  cbn [spsps_consume_whitespace] in H. rewrite (peek_ok p Hl Hn) in H.
  cbv beta iota in H.
  assert (Hc : cur p <> 0) by apply (proj1 Hnn).
  destruct (strchr_ws (cur p)) eqn:Ews.
  - rewrite (frame_consume _ p) in H by reflexivity.
    destruct (consume_inv p Hn Hnn) as (Hn' & Hnn' & Hl').
    destruct (IH _ H ltac:(lia) Hn' Hnn') as (Hr & Hb).
    split; [|exact Hb].
    apply ws_skip; [|exact Hr]. rewrite <- strchr_ws_ws; assumption.
  - injection H as <-. split; [apply ws_stop; reflexivity|].
    change (ws_byte (cur p) = false).
    rewrite <- strchr_ws_ws; assumption.
Qed.

Lemma consume_whitespace_no_nul_run_witness :
  let p := filled_parser [32; 9; 97] 0 in
  exists p', spsps_consume_whitespace 5 p = Some p' /\
    ws_run p p' /\ ws_byte (cur p') = false.
Proof.
  cbv zeta.
  case_eq (spsps_consume_whitespace 5 (filled_parser [32; 9; 97] 0));
    [intros p' E | intros E; vm_compute in E; discriminate].
  exists p'. split; [reflexivity|].
  apply (consume_whitespace_no_nul_run 5 _ p' E).
  - cbn. lia.
  - apply Nat.ltb_lt. reflexivity.
  - split; [|constructor].
    intros b i; destruct b; cbn; [discriminate|].
    destruct i as [|[|[|i]]]; cbn; try discriminate. destruct i; discriminate.
Defined.

(** *** [spsps_peek_and_consume] *)

Lemma frame_pos (p q : parser) : frame p = frame q -> pos p = pos q.
Proof.
  destruct p, q; unfold frame, pos; cbn. intros H; injection H; intros; subst.
  reflexivity.
Qed.

Lemma look_frame (p q : parser) (i : nat) :
  frame p = frame q -> look_byte p i = look_byte q i.
Proof.
  destruct p, q; unfold frame; cbn. intros H; injection H; intros; subst.
  reflexivity.
Qed.

Lemma look_frame_snd (p : parser) (n : nat) :
  frame (snd (spsps_look_ p n)) = frame p.
Proof. unfold spsps_look_; cbv zeta; split_ifs; reflexivity. Qed.

Lemma look_result (p q : parser) (n : nat) (x : Z) :
  spsps_look_ p n = (x, q) -> x = 0 \/ x = SPSPS_EOF \/ x = look_byte p n.
Proof.
  unfold spsps_look_; cbv zeta; split_ifs; intros H; inversion H; subst; auto.
Qed.

Lemma look_ok (p : parser) (n : nat) :
  0 <= look_count p < 1000 -> (n < SPSPS_LOOK)%nat ->
  spsps_look_ p n = (look_byte p n, set_look_count p (look_count p + 1)).
Proof.
  intros Hl Hn. unfold spsps_look_.
  rewrite (proj2 (Nat.leb_gt _ _) Hn).
  cbv zeta. cbn [look_count set_look_count]. unfold u16.
  rewrite (Z.mod_small (look_count p + 1) 65536) by lia.
  replace (1000 <? look_count p + 1) with false by (symmetry; apply Z.ltb_ge; lia).
  reflexivity.
Qed.

Lemma peek_str_loop_frame (needle : list Z) (idx : nat) (p : parser) :
  frame (snd (peek_str_loop needle idx p)) = frame p.
Proof.
  revert idx p; induction needle as [|c rest IH]; intros idx p; [reflexivity|].
  cbn [peek_str_loop].
  pose proof (look_frame_snd p idx) as F.
  destruct (spsps_look_ p idx) as [x p1]. cbn [snd] in F. cbv beta iota.
  destruct (negb (c =? x)); [exact F|]. rewrite IH. exact F.
Qed.

Lemma peek_str_loop_true (needle : list Z) (idx : nat) (p q : parser) :
  Forall (fun c => 0 < c < 255) needle ->
  peek_str_loop needle idx p = (true, q) ->
  forall i, (i < List.length needle)%nat -> look_byte p (idx + i) = nth i needle 0.
Proof.
  revert idx p; induction needle as [|c rest IH]; intros idx p Hf H i Hi;
    [cbn in Hi; lia|].
  inversion Hf as [|? ? Hc Hf']; subst.
  cbn [peek_str_loop] in H.
  pose proof (look_frame_snd p idx) as F.
  destruct (spsps_look_ p idx) as [x p1] eqn:E. cbn [snd] in F.
  cbv beta iota in H.
  destruct (c =? x) eqn:Ecx; cbn [negb] in H; [|discriminate].
  apply Z.eqb_eq in Ecx; subst x.
  destruct i as [|i].
  - rewrite Nat.add_0_r. cbn [nth].
    destruct (look_result _ _ _ _ E) as [H0|[H0|H0]];
      [lia | unfold SPSPS_EOF in H0; lia | symmetry; exact H0].
  - cbn [List.length] in Hi. cbn [nth].
    replace (idx + S i)%nat with (S idx + i)%nat by lia.
    rewrite (look_frame p p1) by (symmetry; exact F).
    apply (IH (S idx) p1 Hf' H i). lia.
Qed.

Lemma peek_str_loop_match (needle : list Z) (idx : nat) (p : parser) :
  (forall i, (i < List.length needle)%nat -> look_byte p (idx + i) = nth i needle 0) ->
  0 <= look_count p -> look_count p + Z.of_nat (List.length needle) <= 1000 ->
  (idx + List.length needle <= SPSPS_LOOK)%nat ->
  peek_str_loop needle idx p =
  (true, set_look_count p (look_count p + Z.of_nat (List.length needle))).
Proof.
  revert idx p; induction needle as [|c rest IH]; intros idx p Hm H0 H1 H2.
  - cbn [peek_str_loop List.length Z.of_nat]. rewrite Z.add_0_r.
    destruct p; reflexivity.
  - cbn [List.length] in *. cbn [peek_str_loop].
    rewrite (look_ok p idx) by lia. cbv beta iota.
    pose proof (Hm O ltac:(lia)) as Hc. rewrite Nat.add_0_r in Hc.
    cbn [nth] in Hc. rewrite Hc, Z.eqb_refl. cbn [negb].
    rewrite IH.
    + apply (f_equal (pair true)). destruct p; unfold set_look_count.
      cbn -[Z.add Z.of_nat]. f_equal. lia.
    + intros i Hi. change (look_byte p (S idx + i) = nth (S i) (c :: rest) 0).
      replace (S idx + i)%nat with (idx + S i)%nat by lia. apply Hm. lia.
    + cbn. lia.
    + cbn. lia.
    + lia.
Qed.

Lemma strlen_no_nul (s : list Z) :
  Forall (fun c => 0 < c < 255) s -> XString.strlen s = List.length s.
Proof.
  induction 1 as [|c s Hc Hs IH]; [reflexivity|].
  cbn. rewrite (proj2 (Z.eqb_neq c 0)) by lia. rewrite IH. reflexivity.
Qed.

Lemma cur_look (p : parser) :
  (next p < SPSPS_LOOK)%nat -> cur p = look_byte p 0.
Proof.
  intros Hn. unfold look_byte, cur. cbn [Nat.add].
  rewrite (proj2 (Nat.ltb_lt _ _) Hn). reflexivity.
Qed.

Lemma consume_step_pos (p : parser) :
  block (consume_step p) =
    (if (SPSPS_LOOK <=? S (next p))%nat then negb (block p) else block p) /\
  next (consume_step p) =
    (if (SPSPS_LOOK <=? S (next p))%nat then S (next p) - SPSPS_LOOK
     else S (next p))%nat /\
  (line (consume_step p), column (consume_step p)) =
    (if cur p =? 10 then (u32 (line p + 1), 1)
     else (line p, u32 (column p + 1))).
Proof.
  unfold consume_step.
  destruct (cur p =? 10); destruct (SPSPS_LOOK <=? S (next p))%nat;
  repeat split.
Qed.

(** Consuming one byte shifts the lookahead window by one. *)
Lemma look_shift (p : parser) (i : nat) :
  (next p < SPSPS_LOOK)%nat -> (i + S (next p) < 2 * SPSPS_LOOK)%nat ->
  look_byte (consume_step p) i = look_byte p (S i).
Proof.
  intros Hn Hi. unfold consume_step.
  destruct (cur p =? 10);
  destruct (SPSPS_LOOK <=? S (next p))%nat eqn:Ew;
  [apply Nat.leb_le in Ew | apply Nat.leb_gt in Ew
  |apply Nat.leb_le in Ew | apply Nat.leb_gt in Ew];
  unfold look_byte, spsps_read_other_; cbn [next block blocks].
  1, 3:
    replace (S (next p) - SPSPS_LOOK)%nat with O by lia;
    rewrite Nat.add_0_r, (proj2 (Nat.ltb_lt i SPSPS_LOOK)) by lia;
    rewrite (proj2 (Nat.ltb_ge (S i + next p) SPSPS_LOOK)) by lia;
    replace (S i + next p - SPSPS_LOOK)%nat with i by lia;
    destruct (block p); reflexivity.
  all: replace (i + S (next p))%nat with (S i + next p)%nat by lia;
    reflexivity.
Qed.

Lemma consume_loop_track (needle : list Z) (p : parser) :
  Forall (fun c => 0 < c < 255) needle ->
  (next p < SPSPS_LOOK)%nat ->
  (next p + List.length needle < 2 * SPSPS_LOOK)%nat ->
  (forall i, (i < List.length needle)%nat -> look_byte p i = nth i needle 0) ->
  let q := consume_loop (List.length needle) p in
  block q = (if (SPSPS_LOOK <=? next p + List.length needle)%nat
             then negb (block p) else block p) /\
  next q = (if (SPSPS_LOOK <=? next p + List.length needle)%nat
            then next p + List.length needle - SPSPS_LOOK
            else next p + List.length needle)%nat /\
  (line q, column q) = track (line p, column p) needle.
Proof.
  revert p; induction needle as [|c rest IH]; intros p Hf Hn Hl Hm; cbv zeta.
  - cbn [consume_loop length]. rewrite Nat.add_0_r.
    rewrite (proj2 (Nat.leb_gt _ _) Hn). repeat split.
  - inversion Hf as [|? ? Hc Hf']; subst.
    cbn [List.length] in Hl |- *. cbn [consume_loop].
    assert (Hcur : cur p = c).
    { rewrite cur_look by exact Hn. apply (Hm O). cbn; lia. }
    rewrite Hcur. rewrite (proj2 (Z.eqb_neq c SPSPS_EOF))
      by (unfold SPSPS_EOF; lia).
    destruct (consume_step_pos p) as (Hb & Hx & Hlc).
    rewrite Hcur in Hlc.
    assert (Hsh : forall i, (i < List.length rest)%nat ->
              look_byte (consume_step p) i = nth i rest 0).
    { intros i Hi. rewrite look_shift by lia.
      apply (Hm (S i)). cbn; lia. }
    destruct (SPSPS_LOOK <=? S (next p))%nat eqn:Ew;
      [apply Nat.leb_le in Ew | apply Nat.leb_gt in Ew].
    + replace (S (next p) - SPSPS_LOOK)%nat with O in Hx by lia.
      destruct (IH (consume_step p) Hf' ltac:(lia) ltac:(lia) Hsh)
        as (B & X & T).
      rewrite Hx, Hb in B. rewrite Hx in X.
      rewrite (proj2 (Nat.leb_gt SPSPS_LOOK (0 + List.length rest))) in B, X by lia.
      rewrite (proj2 (Nat.leb_le SPSPS_LOOK (next p + S (List.length rest)))) by lia.
      split; [exact B|split; [rewrite X; lia|]].
      rewrite T, Hlc. reflexivity.
    + destruct (IH (consume_step p) Hf' ltac:(lia) ltac:(lia) Hsh)
        as (B & X & T).
      rewrite Hx, Hb in B. rewrite Hx in X.
      replace (next p + S (List.length rest))%nat with (S (next p) + List.length rest)%nat
        by lia.
      split; [exact B|split; [exact X|]].
      rewrite T, Hlc. reflexivity.
Qed.

Lemma peek_str_loop_stall (c : Z) (rest : list Z) (idx : nat) (p : parser) :
  0 < c < 255 -> 1000 <= look_count p < 65535 -> (idx < SPSPS_LOOK)%nat ->
  fst (peek_str_loop (c :: rest) idx p) = false.
Proof.
  intros Hc Hl Hi. cbn [peek_str_loop]. unfold spsps_look_.
  rewrite (proj2 (Nat.leb_gt _ _) Hi). cbv zeta.
  cbn [look_count set_look_count]. unfold u16.
  rewrite (Z.mod_small (look_count p + 1) 65536) by lia.
  rewrite (proj2 (Z.ltb_lt 1000 (look_count p + 1))) by lia.
  cbv beta iota. rewrite (proj2 (Z.eqb_neq c SPSPS_EOF)) by (unfold SPSPS_EOF; lia).
  reflexivity.
Qed.

(** C7 (corrected), counterexample: the lookahead holds the needle, but a
    thousand looks have already been made without a consume, so the first
    look reports a stall and [spsps_peek_and_consume] fails. *)
Lemma peek_and_consume_stall_counterexample :
  let p := filled_parser [97] 1000 in
  look_byte p 0 = 97 /\ fst (spsps_peek_and_consume p [97]) = false.
Proof. vm_compute. split; reflexivity. Qed.

(** C7 (corrected): for a needle of bytes in [1..254] shorter than
    [SPSPS_LOOK], a [false] result leaves the position (block, cursor,
    line, column) unchanged, and a mismatch in the lookahead gives
    [false]; when the lookahead matches, the look counter leaves room for
    one look per needle byte, and the parser is not past the end of file,
    the result is [true] and the cursor advances by the needle's length
    (crossing into the other block when it passes [SPSPS_LOOK]), with line
    and column following the consumed bytes.  With the look counter
    between 1000 and 65534 a non-empty needle gives [false], whatever the
    lookahead holds: its first look reports the stall. *)
Theorem peek_and_consume_amended (p : parser) (needle : list Z) :
  Forall (fun c => 0 < c < 255) needle ->
  (List.length needle < SPSPS_LOOK)%nat ->
  let r := spsps_peek_and_consume p needle in
  (fst r = false -> pos (snd r) = pos p) /\
  ((exists i, (i < List.length needle)%nat /\ look_byte p i <> nth i needle 0) ->
   fst r = false) /\
  ((forall i, (i < List.length needle)%nat -> look_byte p i = nth i needle 0) ->
   0 <= look_count p -> look_count p + Z.of_nat (List.length needle) <= 1000 ->
   (next p < SPSPS_LOOK)%nat -> (at_eof p = true -> cur p = SPSPS_EOF) ->
   fst r = true /\
   block (snd r) = (if (SPSPS_LOOK <=? next p + List.length needle)%nat
                    then negb (block p) else block p) /\
   next (snd r) = (if (SPSPS_LOOK <=? next p + List.length needle)%nat
                   then next p + List.length needle - SPSPS_LOOK
                   else next p + List.length needle)%nat /\
   (line (snd r), column (snd r)) = track (line p, column p) needle) /\
  (needle <> [] -> 1000 <= look_count p < 65535 -> fst r = false).
Proof.
  intros Hf Hlen. cbv zeta.
  unfold spsps_peek_and_consume, spsps_peek_str. cbv zeta.
  rewrite (strlen_no_nul needle Hf), firstn_all.
  rewrite (proj2 (Nat.leb_gt _ _) Hlen).
  pose proof (peek_str_loop_frame needle 0 (set_errno (set_errno p OK) OK)) as F.
  destruct (peek_str_loop needle 0 (set_errno (set_errno p OK) OK))
    as [b q] eqn:E.
  cbn [snd] in F. cbv beta iota.
  split; [|split; [|split]].
  - destruct b; cbn [fst]; [discriminate|]. intros _. cbn [snd].
    symmetry. apply frame_pos. symmetry. exact F.
  - intros (i & Hi & Hne). destruct b; [|reflexivity]. exfalso. apply Hne.
    exact (peek_str_loop_true _ _ _ _ Hf E i Hi).
  - intros Hm Hl0 Hl1 Hn He.
    rewrite (peek_str_loop_match needle 0 (set_errno (set_errno p OK) OK)
               Hm Hl0 Hl1 ltac:(lia)) in E.
    injection E as <- <-. cbn [fst snd]. split; [reflexivity|].
    unfold spsps_consume_n. rewrite (proj2 (Nat.leb_gt _ _) Hlen). cbv zeta.
    cbn [at_eof set_look_count set_errno].
    destruct (at_eof p) eqn:Eeof.
    + destruct needle as [|c rest].
      * cbn [List.length consume_loop]. rewrite Nat.add_0_r.
        rewrite (proj2 (Nat.leb_gt _ _) Hn).
        destruct (1000 <? _); repeat split.
      * exfalso. inversion Hf as [|? ? Hc _]; subst.
        pose proof (He eq_refl) as Hcur.
        rewrite cur_look, (Hm O) in Hcur by (cbn; lia).
        cbn in Hcur. unfold SPSPS_EOF in Hcur. lia.
    + match goal with |- context [consume_loop _ ?r] =>
        exact (consume_loop_track needle r Hf Hn
                 ltac:(unfold SPSPS_LOOK in *; cbn; lia) Hm) end.
  - intros Hne Hl. destruct needle as [|c rest]; [contradiction|].
    inversion Hf as [|? ? Hc _]; subst.
    pose proof (peek_str_loop_stall c rest 0 (set_errno (set_errno p OK) OK) Hc
                  ltac:(cbn; lia) ltac:(unfold SPSPS_LOOK; lia)) as Hs.
    rewrite E in Hs. cbn [fst] in Hs. subst b. reflexivity.
Qed.

Lemma peek_and_consume_amended_witness :
  let p := filled_parser [97; 98; 99] 0 in
  (fst (spsps_peek_and_consume p [97; 98]) = true /\
   next (snd (spsps_peek_and_consume p [97; 98])) = 2%nat) /\
  fst (spsps_peek_and_consume (filled_parser [97; 98; 99] 1000) [97; 98]) = false.
Proof.
  cbv zeta. split.
  - destruct (peek_and_consume_amended (filled_parser [97; 98; 99] 0) [97; 98]
                ltac:(repeat constructor; lia)
                ltac:(apply Nat.ltb_lt; reflexivity)) as (_ & _ & Hc & _).
    destruct (Hc ltac:(intros i Hi; destruct i as [|[|i]];
                       [reflexivity | reflexivity | cbn in Hi; lia])
                 ltac:(cbn; lia) ltac:(cbn; lia)
                 ltac:(apply Nat.ltb_lt; reflexivity)
                 ltac:(intros H; discriminate H)) as (H1 & _ & H2 & _).
    split; [exact H1|]. rewrite H2. reflexivity.
  - destruct (peek_and_consume_amended (filled_parser [97; 98; 99] 1000) [97; 98]
                ltac:(repeat constructor; lia)
                ltac:(apply Nat.ltb_lt; reflexivity)) as (_ & _ & _ & Hs).
    exact (Hs ltac:(discriminate) ltac:(cbn; lia)).
Defined.

End ParserFacts.

(* ================================================================== *)
(** ** More facts about the codec *)
(* ================================================================== *)

Module UTF8More.
Import UTF8 UTF8Facts.

(** Turn the boolean tests of a hypothesis or goal into arithmetic. *)
Ltac bool_to_arith :=
  rewrite ?orb_true_iff, ?andb_true_iff, ?Z.leb_le, ?Z.eqb_eq,
          ?orb_false_iff, ?andb_false_iff, ?Z.leb_gt, ?Z.eqb_neq in *.

Lemma strchr_ws_iff (c : Z) :
  Parser.strchr_ws c = true <-> c = 32 \/ c = 9 \/ c = 13 \/ c = 10 \/ c = 0.
Proof.
  unfold Parser.strchr_ws. cbn [existsb]. rewrite orb_false_r.
  bool_to_arith. tauto.
Qed.

(** The bytes [spsps_consume_whitespace] skips ([strchr(" \t\r\n", c)])
    are, apart from NUL, whitespace for [is_whitespace]; the other bytes
    [is_whitespace] accepts are exactly VT, FF, NEL and NBSP. *)
Theorem parser_ws_within_is_whitespace (c : Z) :
  (Parser.strchr_ws c = true -> c <> 0 -> is_whitespace c = true) /\
  (0 <= c <= 255 ->
   (is_whitespace c = true /\ Parser.strchr_ws c = false <->
    In c [11; 12; 0x85; 0xA0])).
Proof.
  split.
  - intros H Hc. apply strchr_ws_iff in H.
    destruct H as [H|[H|[H|[H|H]]]]; subst; [reflexivity..|congruence].
  - intros Hr. split; [intros [H Hn]|].
    2:{ intros Hin. cbn [In] in Hin.
        destruct Hin as [<-|[<-|[<-|[<-|[]]]]]; split; reflexivity. }
    assert (Hn' : ~ (c = 32 \/ c = 9 \/ c = 13 \/ c = 10 \/ c = 0)).
    { rewrite <- strchr_ws_iff. congruence. }
    unfold is_whitespace in H. bool_to_arith. cbn [In].
    lia.
Qed.

Lemma parser_ws_within_is_whitespace_witness :
  (0 <= 0x85 <= 255 /\ is_whitespace 0x85 = true /\
   Parser.strchr_ws 0x85 = false) /\ In 0x85 [11; 12; 0x85; 0xA0].
Proof.
  split; [split; [lia | split; reflexivity]|].
  apply (proj2 (parser_ws_within_is_whitespace 0x85)).
  - lia.
  - split; reflexivity.
Defined.

(** The two classifications overlap exactly on TAB, LF, VT, FF, CR and
    NEL. *)
Theorem whitespace_control_overlap (cp : Z) :
  is_whitespace cp = true /\ is_ISO_control cp = true <->
  9 <= cp <= 13 \/ cp = 0x85.
Proof.
  unfold is_whitespace, is_ISO_control. bool_to_arith. lia.
Qed.

(** Outside the bad leading bytes, [utf8decode_size] reports the number of
    bytes [utf8decode] uses; from a leading byte [0xF8] up, [utf8decode]
    returns the bad-byte value and leaves the caller's [*used] as it
    was, while [utf8decode_size] reports one byte. *)
Theorem decode_size_matches_used (u : list Z) :
  ((byte_at u 0 < 0x80 \/ 0xC0 <= byte_at u 0 < 0xF8) ->
   utf8decode_size (Some u) = snd (utf8decode (Some u))) /\
  (0xF8 <= byte_at u 0 -> forall used,
   utf8decode_at used (Some u) = (BADUTF8 (byte_at u 0), used) /\
   utf8decode_size (Some u) = 1).
Proof.
  split.
  - intros H. unfold utf8decode_size, utf8decode. cbv zeta.
    destruct (byte_at u 0 <? 0x80) eqn:E1; [reflexivity|].
    destruct (byte_at u 0 <? 0xC0) eqn:E2;
      [rewrite Z.ltb_ge in E1; rewrite Z.ltb_lt in E2; lia|].
    destruct (byte_at u 0 <? 0xE0);
      [destruct (not_cont (byte_at u 1)); reflexivity|].
    destruct (byte_at u 0 <? 0xF0);
      [destruct (not_cont (byte_at u 1)), (not_cont (byte_at u 2));
       reflexivity|].
    destruct (byte_at u 0 <? 0xF8) eqn:E5;
      [destruct (not_cont (byte_at u 1)), (not_cont (byte_at u 2)),
         (not_cont (byte_at u 3)); reflexivity|].
    rewrite Z.ltb_ge in E1, E2, E5. lia.
  - intros H used. unfold utf8decode_at, utf8decode_size, utf8decode.
    cbv zeta.
    rewrite (proj2 (Z.leb_le _ _) H).
    rewrite !(proj2 (Z.ltb_ge (byte_at u 0) _)) by lia.
    split; reflexivity.
Qed.

Lemma decode_size_matches_used_witness :
  ((byte_at [0xC3; 0xA9] 0 < 0x80 \/ 0xC0 <= byte_at [0xC3; 0xA9] 0 < 0xF8) /\
   utf8decode_size (Some [0xC3; 0xA9]) = snd (utf8decode (Some [0xC3; 0xA9]))) /\
  (0xF8 <= byte_at [0xF9] 0 /\
   utf8decode_at 2 (Some [0xF9]) = (BADUTF8 (byte_at [0xF9] 0), 2)).
Proof.
  split; split.
  - cbn. lia.
  - apply (proj1 (decode_size_matches_used [0xC3; 0xA9])). cbn. lia.
  - cbn. lia.
  - apply (proj2 (decode_size_matches_used [0xF9])). cbn. lia.
Defined.

(** The decoder does not check the range of what it decodes: four-byte
    forms of values from [0x110000] to [0x1FFFFF], which the encoder
    rejects, and overlong two-byte forms of ASCII are decoded to the
    value they spell. *)
Theorem decode_accepts_noncanonical (v : Z) :
  (0x110000 <= v < 0x200000 ->
   utf8decode (Some [0xF0 + v / 2 ^ 18; 0x80 + (v / 2 ^ 12) mod 64;
                     0x80 + (v / 2 ^ 6) mod 64; 0x80 + v mod 64]) = (v, 4) /\
   snd (utf8encode v) = 0) /\
  (0 <= v < 0x80 ->
   utf8decode (Some [0xC0 + v / 2 ^ 6; 0x80 + v mod 64]) = (v, 2) /\
   snd (utf8encode v) = 1).
Proof.
  split.
  - intros Hv. split.
    + unfold utf8decode, byte_at; cbn [fst snd nth]. to_arith. settle_tests.
      rewrite (lor_low_add 18 (_ * 2 ^ 18)), (lor_low_add 12 (_ + _)),
        (lor_low_add 6 (_ + _)) by arith.
      f_equal. arith.
    + unfold utf8encode. rewrite !(proj2 (Z.ltb_ge _ _)) by lia. reflexivity.
  - intros Hv. split.
    + unfold utf8decode, byte_at; cbn [fst snd nth]. to_arith. settle_tests.
      rewrite (lor_low_add 6) by arith. f_equal. arith.
    + unfold utf8encode. rewrite (proj2 (Z.ltb_lt _ _)) by lia. reflexivity.
Qed.

Lemma decode_accepts_noncanonical_witness :
  (0x110000 <= 0x1FFFFF < 0x200000) /\
  utf8decode (Some [0xF0 + 0x1FFFFF / 2 ^ 18; 0x80 + (0x1FFFFF / 2 ^ 12) mod 64;
                    0x80 + (0x1FFFFF / 2 ^ 6) mod 64; 0x80 + 0x1FFFFF mod 64])
  = (0x1FFFFF, 4).
Proof.
  split; [lia|].
  apply (proj1 (proj1 (decode_accepts_noncanonical 0x1FFFFF) ltac:(lia))).
Defined.

(** *** Decoding whole strings ([decode], [count_code_points]). *)

Import XString.

(** The bytes the encoder produces for one code point. *)
Lemma encoded_prefix (cp : Z) (rest : list Z) :
  0 <= cp < 0x110000 ->
  let k := snd (utf8encode cp) in
  let e := firstn (Z.to_nat k) (fst (utf8encode cp)) in
  utf8decode (Some (e ++ rest)) = (cp, k) /\
  utf8decode_size (Some (e ++ rest)) = k /\
  List.length e = Z.to_nat k /\ 1 <= k <= 4.
Proof.
  intros Hcp. cbv zeta. unfold utf8encode.
  destruct (cp <? 0x80) eqn:E1; [|destruct (cp <? 0x800) eqn:E2;
    [|destruct (cp <? 0x1000) eqn:E3; [|destruct (cp <? 0x110000) eqn:E4]]];
    rewrite ?Z.ltb_lt, ?Z.ltb_ge in *; try lia;
    cbn [fst snd];
    change (Z.to_nat 1) with 1%nat; change (Z.to_nat 2) with 2%nat;
    change (Z.to_nat 3) with 3%nat; change (Z.to_nat 4) with 4%nat;
    cbn [firstn app List.length];
    (split; [|split; [|split; [reflexivity | lia]]]);
    unfold utf8decode, utf8decode_size, byte_at; cbn [nth];
    to_arith; settle_tests; try reflexivity.
  - f_equal. arith.
  - rewrite (lor_low_add 6) by arith. f_equal. arith.
  - rewrite (lor_low_add 12 (_ * 2 ^ 12)), (lor_low_add 6 (_ + _)) by arith.
    f_equal. arith.
  - rewrite (lor_low_add 18 (_ * 2 ^ 18)), (lor_low_add 12 (_ + _)),
      (lor_low_add 6 (_ + _)) by arith.
    f_equal. arith.
Qed.

Lemma decode_at_used (used : Z) (l : list Z) :
  snd (utf8decode (Some l)) <> 0 -> utf8decode_at used (Some l) = utf8decode (Some l).
Proof.
  intros H. unfold utf8decode_at.
  destruct (0xF8 <=? byte_at l 0) eqn:E; [|reflexivity].
  exfalso. apply H. apply Z.leb_le in E.
  unfold utf8decode. cbv zeta.
  rewrite !(proj2 (Z.ltb_ge (byte_at l 0) _)) by lia. reflexivity.
Qed.

Lemma encode_all_cons (cp : Z) (cps : list Z) :
  encode_all (cp :: cps) =
  firstn (Z.to_nat (snd (utf8encode cp))) (fst (utf8encode cp)) ++ encode_all cps.
Proof. reflexivity. Qed.

Lemma encode_all_length (cps : list Z) :
  Forall (fun cp => 0 <= cp < 0x110000) cps ->
  (List.length cps <= List.length (encode_all cps))%nat.
Proof.
  induction 1 as [|cp cps Hcp Hcps IH]; [cbn; lia|].
  rewrite encode_all_cons, length_app.
  destruct (encoded_prefix cp [] Hcp) as (_ & _ & Hl & Hk).
  cbn [List.length]. rewrite Hl. lia.
Qed.

Lemma count_loop_encoded (cps tail : list Z) (fuel pts : nat) :
  Forall (fun cp => 0 <= cp < 0x110000) cps ->
  Z.of_nat (List.length (encode_all cps)) < 2 ^ 64 ->
  (List.length cps < fuel)%nat ->
  count_loop fuel (encode_all cps ++ tail)
             (Z.of_nat (List.length (encode_all cps))) pts
  = Some (pts + List.length cps)%nat.
Proof.
  intros Hf. revert fuel pts.
  induction Hf as [|cp cps Hcp Hcps IH]; intros fuel pts Hb Hfuel.
  - destruct fuel as [|f]; [cbn in Hfuel; lia|]. cbn. f_equal. lia.
  - destruct fuel as [|f]; [lia|].
    destruct (encoded_prefix cp (encode_all cps ++ tail) Hcp) as (_ & Hs & Hl & Hk).
    rewrite encode_all_cons in *. rewrite length_app in *. rewrite <- app_assoc.
    cbn [count_loop].
    rewrite (proj2 (Z.ltb_lt _ _)) by lia. cbv zeta.
    rewrite Hs, skipn_app, Hl, Nat.sub_diag, skipn_all2 by lia.
    cbn [app skipn].
    rewrite Z.mod_small by lia.
    replace (Z.of_nat (Z.to_nat (snd (utf8encode cp)) + List.length (encode_all cps))
             - snd (utf8encode cp))
      with (Z.of_nat (List.length (encode_all cps))) by lia.
    rewrite IH by (cbn [List.length] in Hfuel; lia).
    f_equal. cbn [List.length]. lia.
Qed.

Lemma decode_loop_encoded (cps tail : list Z) (used : Z) :
  Forall (fun cp => 0 <= cp < 0x110000) cps ->
  decode_loop (List.length cps) (encode_all cps ++ tail) used = cps.
Proof.
  intros Hf. revert used.
  induction Hf as [|cp cps Hcp Hcps IH]; intros used; [reflexivity|].
  destruct (encoded_prefix cp (encode_all cps ++ tail) Hcp) as (Hd & _ & Hl & Hk).
  cbn [List.length decode_loop]. rewrite encode_all_cons, <- app_assoc.
  rewrite decode_at_used by (rewrite Hd; cbn; lia).
  rewrite Hd. cbv beta iota.
  rewrite skipn_app, Hl, Nat.sub_diag, skipn_all2 by lia.
  cbn [app skipn]. rewrite IH. reflexivity.
Qed.

(** [xstr_decode] inverts the encoder: the immutable string holding the
    UTF-8 encoding of valid code points decodes to those code points,
    followed by the terminating zero, and reports their number.  With no
    code point the buffer is the [NULL] one of [xstr_new]: [decode]
    returns the lone zero and leaves [*length] unwritten. *)
Theorem xstr_decode_roundtrip (cps : list Z) :
  Forall (fun cp => 0 <= cp < 0x110000) cps ->
  Z.of_nat (List.length (encode_all cps)) < 2 ^ 64 ->
  xstr_decode {| xcstr := encode_all cps;
                 xlength := List.length (encode_all cps) |}
  = Some (cps ++ [0], match cps with [] => None | _ => Some (List.length cps) end).
Proof.
  intros Hf Hb. pose proof (encode_all_length cps Hf) as Hl.
  destruct cps as [|cp0 cps0]; [reflexivity|].
  unfold xstr_decode. cbn [xcstr xlength].
  set (cps := cp0 :: cps0) in *.
  assert (Hm : match encode_all cps with [] => None | _ => Some (encode_all cps) end
               = Some (encode_all cps))
    by (destruct (encode_all cps); [unfold cps in Hl; cbn [List.length] in Hl; lia | reflexivity]).
  rewrite Hm. unfold decode, count_code_points.
  pose proof (count_loop_encoded cps [] (S (Z.to_nat (Z.of_nat
    (List.length (encode_all cps))))) O Hf Hb ltac:(lia)) as Hc.
  pose proof (decode_loop_encoded cps [] 0 Hf) as Hd.
  rewrite app_nil_r in Hc, Hd. rewrite Hc.
  cbn [Nat.add]. rewrite Hd. reflexivity.
Qed.

Lemma xstr_decode_roundtrip_witness :
  xstr_decode {| xcstr := encode_all [0x41; 0xE9; 0x20AC];
                 xlength := List.length (encode_all [0x41; 0xE9; 0x20AC]) |}
  = Some ([0x41; 0xE9; 0x20AC; 0], Some 3%nat) /\
  xstr_decode {| xcstr := []; xlength := 0 |} = Some ([0], None).
Proof.
  split.
  - apply (xstr_decode_roundtrip [0x41; 0xE9; 0x20AC]).
    + repeat constructor; lia.
    + vm_compute. reflexivity.
  - apply (xstr_decode_roundtrip []); [constructor | vm_compute; reflexivity].
Defined.

(** A stray continuation byte at the front stalls [decode]: [utf8decode]
    reports [used = 0] for it, so every entry of the result is the same
    bad-byte value, however many code points were counted. *)
Theorem decode_stray_continuation (v : xstring_) (b : Z) (tail : list Z) :
  xcstr v = b :: tail -> 0x80 <= b < 0xC0 ->
  forall vals n, xstr_decode v = Some (vals, Some n) ->
  vals = repeat (Z.lor 0xDC00 b) n ++ [0].
Proof.
  intros Hv Hb vals n. unfold xstr_decode. rewrite Hv. unfold decode.
  destruct (count_code_points (b :: tail) (Z.of_nat (xlength v))) as [m|];
    [|discriminate].
  intros H. injection H as <- <-. f_equal.
  generalize 0 as used. induction m as [|m IH]; intros used; [reflexivity|].
  cbn [decode_loop repeat].
  destruct (UTF8Facts.decode_bad_lead_asymmetry (b :: tail) ltac:(cbn; lia))
    as (Hd & _).
  unfold utf8decode_at. cbn [byte_at nth] in Hd |- *.
  rewrite (proj2 (Z.leb_gt _ _)) by lia. rewrite Hd. cbv beta iota.
  cbn [skipn Z.to_nat]. rewrite IH. reflexivity.
Qed.

Lemma decode_stray_continuation_witness :
  xstr_decode {| xcstr := [0x80; 0x41]; xlength := 2 |} =
    Some ([0xDC80; 0xDC80; 0], Some 2%nat) /\
  [0xDC80; 0xDC80; 0] = repeat (Z.lor 0xDC00 0x80) 2 ++ [0].
Proof.
  split; [vm_compute; reflexivity|].
  apply (decode_stray_continuation {| xcstr := [0x80; 0x41]; xlength := 2 |}
           0x80 [0x41] eq_refl ltac:(lia)).
  vm_compute. reflexivity.
Defined.

(** After a multi-byte character, a byte from [0xF8] up makes [decode]
    skip ahead by the width of that character instead of one byte, since
    [utf8decode] leaves [used] as it was: the bytes after it are lost. *)
Theorem decode_high_byte_skips (cp b : Z) (rest : list Z) (n : nat) :
  0x80 <= cp < 0x110000 -> 0xF8 <= b ->
  let k := snd (utf8encode cp) in
  decode_loop (S (S n))
    (firstn (Z.to_nat k) (fst (utf8encode cp)) ++ b :: rest) 0 =
  cp :: BADUTF8 b :: decode_loop n (skipn (Z.to_nat k - 1) rest) k /\
  (2 <= k)%Z.
Proof.
  intros Hcp Hb. cbv zeta.
  destruct (encoded_prefix cp (b :: rest) ltac:(lia)) as (Hd & _ & Hl & Hk).
  assert (H2 : 2 <= snd (utf8encode cp)).
  { unfold utf8encode. rewrite (proj2 (Z.ltb_ge cp 0x80)) by lia.
    destruct (cp <? 0x800); [cbn; lia|]. destruct (cp <? 0x1000); [cbn; lia|].
    rewrite (proj2 (Z.ltb_lt cp 0x110000)) by lia. cbn; lia. }
  split; [|exact H2].
  cbn [decode_loop]. rewrite decode_at_used by (rewrite Hd; cbn; lia).
  rewrite Hd. cbv beta iota.
  rewrite skipn_app, Hl, Nat.sub_diag, skipn_all2 by lia.
  cbn [app skipn]. unfold utf8decode_at. cbn [byte_at nth].
  rewrite (proj2 (Z.leb_le _ _) Hb). cbn [fst].
  replace (Z.to_nat (snd (utf8encode cp))) with (S (Z.to_nat (snd (utf8encode cp)) - 1))
    at 1 by lia.
  cbn [skipn]. f_equal. f_equal.
  unfold utf8decode. cbv zeta. cbn [byte_at nth].
  rewrite !(proj2 (Z.ltb_ge b _)) by lia. reflexivity.
Qed.

Lemma decode_high_byte_skips_witness :
  decode_loop 3 (firstn 2 (fst (utf8encode 0xE9)) ++ [0xF9; 0x41; 0x42]) 0
  = [0xE9; BADUTF8 0xF9; 0x42].
Proof.
  pose proof (proj1 (decode_high_byte_skips 0xE9 0xF9 [0x41; 0x42] 1
                       ltac:(lia) ltac:(lia))) as H.
  exact H.
Defined.

End UTF8More.

(* ================================================================== *)
(** ** More facts about the strings *)
(* ================================================================== *)

Module XStringMore.
Import UTF8 XString XStringFacts.

(** Settle the [nat] tests of a goal from the arithmetic in context. *)
Ltac settle_nat :=
  repeat match goal with
  | |- context [(?a <=? ?b)%nat] =>
      first [ rewrite (proj2 (Nat.leb_le a b)) by lia
            | rewrite (proj2 (Nat.leb_gt a b)) by lia ]
  | |- context [(?a <? ?b)%nat] =>
      first [ rewrite (proj2 (Nat.ltb_lt a b)) by lia
            | rewrite (proj2 (Nat.ltb_ge a b)) by lia ]
  | |- context [(?a =? ?b)%nat] =>
      first [ rewrite (proj2 (Nat.eqb_eq a b)) by lia
            | rewrite (proj2 (Nat.eqb_neq a b)) by lia ]
  end; cbn [andb].

Lemma strlen_le (s : list Z) : (strlen s <= List.length s)%nat.
Proof.
  induction s as [|c s IH]; cbn; [lia|]. destruct (c =? 0); lia.
Qed.

Lemma contents_ok (v : xstring_) :
  xstr_ok (Some v) -> xstr_contents (Some v) = xcstr v.
Proof. cbn. intros H. apply firstn_all2. lia. Qed.

Lemma length_contents (x : xstring) :
  xstr_ok x -> List.length (xstr_contents x) = xstr_length x.
Proof.
  destruct x as [v|]; [|reflexivity]. intros H.
  rewrite contents_ok by exact H. exact H.
Qed.

Lemma copy_props (x : xstring) :
  xstr_ok x ->
  xstr_contents (xstr_copy x) = xstr_contents x /\ xstr_ok (xstr_copy x) /\
  (xstr_copy x = None <-> xstr_contents x = []).
Proof.
  destruct x as [v|]; [|cbn; tauto]. intros H.
  rewrite contents_ok by exact H. cbn in H |- *.
  destruct (xlength v =? 0)%nat eqn:E.
  - apply Nat.eqb_eq in E. destruct (xcstr v); cbn in H; [|lia].
    repeat split; reflexivity.
  - apply Nat.eqb_neq in E. cbn.
    rewrite firstn_firstn, Nat.min_id, firstn_all2 by lia.
    repeat split; [exact H | discriminate |].
    intros Hc. rewrite Hc in H. cbn in H. lia.
Qed.

(** [xstr_concat] of two well-formed strings holds the bytes of the first
    followed by those of the second, is well formed, and is [NULL]
    exactly when both are empty: it never returns an allocated empty
    string. *)
Theorem xstr_concat_contents (a b : xstring) :
  xstr_ok a -> xstr_ok b ->
  xstr_contents (xstr_concat a b) = xstr_contents a ++ xstr_contents b /\
  xstr_ok (xstr_concat a b) /\
  (xstr_concat a b = None <-> xstr_contents a ++ xstr_contents b = []).
Proof.
  intros Ha Hb. pose proof (length_contents a Ha) as La.
  pose proof (length_contents b Hb) as Lb.
  unfold xstr_concat.
  destruct (xstr_length b =? 0)%nat eqn:Eb.
  - apply Nat.eqb_eq in Eb. rewrite Eb in Lb.
    destruct (xstr_contents b); [|cbn in Lb; lia]. rewrite app_nil_r.
    apply copy_props. exact Ha.
  - apply Nat.eqb_neq in Eb.
    destruct (xstr_length a =? 0)%nat eqn:Ea.
    + apply Nat.eqb_eq in Ea. rewrite Ea in La.
      destruct (xstr_contents a); [|cbn in La; lia]. cbn [app].
      apply copy_props. exact Hb.
    + apply Nat.eqb_neq in Ea.
      destruct a as [f|]; [|cbn in Ea; lia]. destruct b as [s|]; [|cbn in Eb; lia].
      rewrite (contents_ok f Ha), (contents_ok s Hb).
      cbn in Ha, Hb, Ea, Eb |- *.
      rewrite (firstn_all2 (xcstr f)), (firstn_all2 (xcstr s)) by lia.
      rewrite firstn_all2 by (rewrite length_app; lia).
      repeat split; [rewrite length_app; lia | discriminate |].
      intros Hn. apply app_eq_nil in Hn. destruct Hn as [Hn _].
      rewrite Hn in Ha. cbn in Ha. lia.
Qed.

Lemma xstr_concat_contents_witness :
  let a := Some {| xcstr := [104; 105]; xlength := 2 |} in
  let b := Some {| xcstr := [33]; xlength := 1 |} in
  (xstr_ok a /\ xstr_ok b) /\
  xstr_contents (xstr_concat a b) = [104; 105; 33].
Proof.
  cbv zeta. split; [split; reflexivity|].
  exact (proj1 (xstr_concat_contents
                  (Some {| xcstr := [104; 105]; xlength := 2 |})
                  (Some {| xcstr := [33]; xlength := 1 |}) eq_refl eq_refl)).
Defined.

(** [xstr_append_cstr] of a well-formed string holds its bytes followed
    by those of the C string up to its NUL, and is well formed. *)
Theorem xstr_append_cstr_contents (v : xstring) (s : list Z) :
  xstr_ok v ->
  xstr_contents (xstr_append_cstr v s) = xstr_contents v ++ firstn (strlen s) s /\
  xstr_ok (xstr_append_cstr v s).
Proof.
  pose proof (strlen_le s) as Hs.
  destruct v as [v|]; intros Hv.
  - rewrite contents_ok by exact Hv. cbn in Hv |- *.
    destruct (strlen s =? 0)%nat eqn:E.
    + apply Nat.eqb_eq in E. rewrite E. cbn. rewrite app_nil_r.
      split; [apply firstn_all2; lia | exact Hv].
    + apply Nat.eqb_neq in E. cbn.
      rewrite (firstn_all2 (n := xlength v) (xcstr v)) by lia.
      rewrite firstn_all2 by (rewrite length_app, length_firstn; lia).
      split; [reflexivity|]. rewrite length_app, length_firstn. lia.
  - cbn. unfold xstr_wrap.
    destruct (strlen s =? 0)%nat eqn:E.
    + apply Nat.eqb_eq in E. rewrite E. split; reflexivity.
    + cbn. rewrite firstn_firstn, Nat.min_id.
      split; [reflexivity|]. rewrite length_firstn. lia.
Qed.

Lemma xstr_append_cstr_contents_witness :
  xstr_ok (Some {| xcstr := [104]; xlength := 1 |}) /\
  xstr_contents (xstr_append_cstr (Some {| xcstr := [104]; xlength := 1 |})
                   [105; 0; 106]) = [104; 105].
Proof.
  split; [reflexivity|].
  exact (proj1 (xstr_append_cstr_contents
                  (Some {| xcstr := [104]; xlength := 1 |}) [105; 0; 106] eq_refl)).
Defined.

(** *** Comparison *)

Section Cmp.
Variable val : Z -> Z.

Lemma strcmp_loop_lex (l1 l2 : list Z) :
  strcmp_loop val l1 l2 (List.length l1) (List.length l2) = lex val l1 l2.
Proof.
  revert l2; induction l1 as [|a x IH]; intros [|b y]; try reflexivity.
  cbn [strcmp_loop lex List.length hd tl].
  destruct (val a <? val b); [reflexivity|].
  destruct (val b <? val a); [reflexivity|]. apply IH.
Qed.

Lemma xstr_strcmp_is_lex (a b : xstring) :
  xstr_ok a -> xstr_ok b ->
  xstr_strcmp val a b = lex val (xstr_contents a) (xstr_contents b).
Proof.
  intros Ha Hb. pose proof (length_contents a Ha) as La.
  pose proof (length_contents b Hb) as Lb.
  unfold xstr_strcmp. cbv zeta.
  destruct (xstr_length a =? 0)%nat eqn:Ea.
  - apply Nat.eqb_eq in Ea. rewrite Ea in La.
    destruct (xstr_contents a); [|cbn in La; lia].
    destruct (xstr_contents b) as [|c l]; rewrite <- Lb; reflexivity.
  - apply Nat.eqb_neq in Ea.
    destruct (xstr_length b =? 0)%nat eqn:Eb.
    + apply Nat.eqb_eq in Eb. rewrite Eb in Lb.
      destruct (xstr_contents b); [|cbn in Lb; lia].
      destruct (xstr_contents a); [cbn in La; lia|reflexivity].
    + destruct a as [l|]; [|cbn in Ea; lia]. destruct b as [r|]; [|cbn in Eb; lia].
      rewrite (contents_ok l Ha), (contents_ok r Hb). cbn in Ha, Hb |- *.
      rewrite <- Ha, <- Hb. apply strcmp_loop_lex.
Qed.

Lemma lex_antisym (l1 l2 : list Z) : lex val l2 l1 = - lex val l1 l2.
Proof.
  revert l2; induction l1 as [|a x IH]; intros [|b y]; try reflexivity.
  cbn [lex].
  destruct (val a <? val b) eqn:E1, (val b <? val a) eqn:E2;
    rewrite ?Z.ltb_lt, ?Z.ltb_ge in *; try lia. apply IH.
Qed.

Lemma lex_values (l1 l2 : list Z) :
  lex val l1 l2 = -1 \/ lex val l1 l2 = 0 \/ lex val l1 l2 = 1.
Proof.
  revert l2; induction l1 as [|a x IH]; intros [|b y]; cbn [lex]; auto.
  destruct (val a <? val b); auto. destruct (val b <? val a); auto.
Qed.

Lemma lex_zero (l1 l2 : list Z) :
  (forall x y, 0 <= x < 256 -> 0 <= y < 256 -> val x = val y -> x = y) ->
  Forall (fun x => 0 <= x < 256) l1 -> Forall (fun x => 0 <= x < 256) l2 ->
  lex val l1 l2 = 0 <-> l1 = l2.
Proof.
  intros Hinj H1. revert l2.
  induction H1 as [|a x Ha Hx IH]; intros l2 H2.
  - destruct l2; cbn; split; congruence.
  - destruct l2 as [|b y]; cbn [lex]; [split; congruence|].
    inversion H2 as [|? ? Hb Hy]; subst.
    destruct (val a <? val b) eqn:E1; [|destruct (val b <? val a) eqn:E2].
    + rewrite Z.ltb_lt in E1. split; [discriminate|].
      intros Heq; injection Heq as -> ->. lia.
    + rewrite Z.ltb_lt in E2. split; [discriminate|].
      intros Heq; injection Heq as -> ->. lia.
    + rewrite Z.ltb_ge in E1, E2.
      assert (a = b) by (apply Hinj; [exact Ha | exact Hb | lia]). subst b.
      rewrite (IH y Hy). split; [intros ->; reflexivity | congruence].
Qed.

End Cmp.

(** [xstr_strcmp] of well-formed strings is the lexicographic order of
    their bytes (as the platform's [char] values): it returns -1, 0 or
    1, swapping the arguments negates it, and, when distinct bytes give
    distinct [char] values, it is 0 exactly on equal contents. *)
Theorem xstr_strcmp_order (val : Z -> Z) (a b : xstring) :
  (forall x y, 0 <= x < 256 -> 0 <= y < 256 -> val x = val y -> x = y) ->
  xstr_ok a -> xstr_ok b ->
  Forall (fun x => 0 <= x < 256) (xstr_contents a) ->
  Forall (fun x => 0 <= x < 256) (xstr_contents b) ->
  xstr_strcmp val a b = lex val (xstr_contents a) (xstr_contents b) /\
  (xstr_strcmp val a b = 0 <-> xstr_contents a = xstr_contents b) /\
  xstr_strcmp val b a = - xstr_strcmp val a b /\
  (xstr_strcmp val a b = -1 \/ xstr_strcmp val a b = 0 \/
   xstr_strcmp val a b = 1).
Proof.
  intros Hinj Ha Hb Ra Rb.
  rewrite !xstr_strcmp_is_lex by assumption.
  split; [reflexivity|]. split; [apply lex_zero; assumption|].
  split; [apply lex_antisym | apply lex_values].
Qed.


Lemma xstr_strcmp_order_witness :
  let a := Some {| xcstr := [97; 98]; xlength := 2 |} in
  let b := Some {| xcstr := [97; 0xE9]; xlength := 2 |} in
  xstr_strcmp signed_char a b = 1 /\ xstr_strcmp signed_char b a = -1.
Proof.
  cbv zeta.
  destruct (xstr_strcmp_order signed_char
              (Some {| xcstr := [97; 98]; xlength := 2 |})
              (Some {| xcstr := [97; 0xE9]; xlength := 2 |}))
    as (H1 & _ & H3 & _).
  - intros x y Hx Hy. unfold signed_char.
    destruct (x <? 128) eqn:E1, (y <? 128) eqn:E2;
      rewrite ?Z.ltb_lt, ?Z.ltb_ge in *; lia.
  - reflexivity.
  - reflexivity.
  - repeat constructor; lia.
  - repeat constructor; lia.
  - rewrite H3, H1. split; vm_compute; reflexivity.
Defined.

(** *** Block chains *)

Lemma bytes_nil : mstr_bytes [] = [].
Proof. reflexivity. Qed.

Lemma bytes_cons (b : mstring_) (rest : mstring) :
  mstr_bytes (b :: rest) = map (cstr b) (seq 0 (local_length b)) ++ mstr_bytes rest.
Proof. reflexivity. Qed.

Lemma length_bytes (v : mstring) : List.length (mstr_bytes v) = sum_used v.
Proof.
  induction v as [|b rest IH]; [reflexivity|].
  rewrite bytes_cons, length_app, length_map, length_seq, IH. reflexivity.
Qed.

Lemma nth_map_seq (f : nat -> Z) (k n : nat) :
  (k < n)%nat -> nth k (map f (seq 0 n)) 0 = f k.
Proof.
  intros H. rewrite nth_indep with (d' := f O) by (rewrite length_map, length_seq; lia).
  rewrite map_nth, seq_nth by exact H. reflexivity.
Qed.

Lemma map_nth_seq (l : list Z) :
  map (fun i => nth i l 0) (seq 0 (List.length l)) = l.
Proof.
  induction l as [|a l IH]; [reflexivity|]. cbn [List.length seq map nth].
  f_equal. rewrite <- seq_shift, map_map. exact IH.
Qed.


Lemma rem_step (b : mstring_) (rest : mstring) (n off : nat) :
  rem (b :: rest, S n, off) = cstr b off :: rem (b :: rest, n, S off).
Proof. reflexivity. Qed.

Lemma advance_spec (chain : mstring) (ll off : nat) :
  in_block (chain, ll, off) ->
  at_byte (advance chain ll off) /\ rem (advance chain ll off) = rem (chain, ll, off).
Proof.
  revert ll off; induction chain as [|b rest IH]; intros ll off H.
  - split; [exact I | reflexivity].
  - cbn [advance]. destruct (ll =? 0)%nat eqn:E.
    + apply Nat.eqb_eq in E; subst ll. destruct rest as [|b' rest'].
      * split; [exact I | reflexivity].
      * destruct (IH (local_length b') O) as [H1 H2]; [cbn; lia|].
        split; [exact H1|]. rewrite H2. reflexivity.
    + apply Nat.eqb_neq in E. cbn in H |- *. split; [lia | reflexivity].
Qed.

Section CmpChain.
Variable val : Z -> Z.

Lemma cmp_loop_lex (fuel : nat) (l r : mpos) :
  at_byte l -> at_byte r -> (List.length (rem l) < fuel)%nat ->
  mstr_cmp_loop val fuel l r = lex val (rem l) (rem r).
Proof.
  revert l r. induction fuel as [|f IH];
    intros [[lc lll] lp] [[rc rll] rp] Hl Hr Hf; [lia|].
  destruct lc as [|lb lrest], rc as [|rb rrest].
  - reflexivity.
  - destruct rll as [|rll']; [cbn in Hr; lia|].
    rewrite rem_step. reflexivity.
  - destruct lll as [|lll']; [cbn in Hl; lia|].
    rewrite rem_step. reflexivity.
  - destruct lll as [|lll']; [cbn in Hl; lia|].
    destruct rll as [|rll']; [cbn in Hr; lia|].
    rewrite !rem_step. rewrite rem_step in Hf. cbn [List.length] in Hf.
    cbn [mstr_cmp_loop lex].
    destruct (val (cstr lb lp) <? val (cstr rb rp)); [reflexivity|].
    destruct (val (cstr rb rp) <? val (cstr lb lp)); [reflexivity|].
    replace (S lll' - 1)%nat with lll' by lia.
    replace (S rll' - 1)%nat with rll' by lia.
    destruct (advance_spec (lb :: lrest) lll' (S lp)) as [Wl Rl];
      [cbn in Hl |- *; lia|].
    destruct (advance_spec (rb :: rrest) rll' (S rp)) as [Wr Rr];
      [cbn in Hr |- *; lia|].
    rewrite IH; [rewrite Rl, Rr; reflexivity | exact Wl | exact Wr |].
    rewrite Rl. apply Nat.succ_lt_mono. exact Hf.
Qed.

End CmpChain.

Lemma skip_empty_spec (v : mstring) :
  mstr_bytes (skip_empty v) = mstr_bytes v /\
  match skip_empty v with [] => True | b :: _ => (0 < local_length b)%nat end.
Proof.
  induction v as [|b rest IH]; [split; [reflexivity | exact I]|].
  cbn [skip_empty]. destruct (local_length b =? 0)%nat eqn:E.
  - apply Nat.eqb_eq in E. rewrite bytes_cons, E. exact IH.
  - apply Nat.eqb_neq in E. split; [reflexivity | lia].
Qed.

Lemma first_pos_spec (v : mstring) :
  at_byte (first_pos v) /\ rem (first_pos v) = mstr_bytes v.
Proof.
  unfold first_pos. destruct (skip_empty_spec v) as [H1 H2].
  destruct (skip_empty v) as [|b rest].
  - split; [exact I | exact H1].
  - split; [cbn; lia|]. rewrite <- H1. reflexivity.
Qed.

(** [mstr_strcmp] of two chains that keep the invariant is the
    lexicographic order of the bytes they hold: how the bytes are split
    into blocks, empty blocks included, does not matter. *)
Theorem mstr_strcmp_lex (val : Z -> Z) (a b : mstring) :
  mstr_inv a -> mstr_inv b ->
  mstr_strcmp val a b = lex val (mstr_bytes a) (mstr_bytes b).
Proof.
  intros [Ha _] [Hb _].
  pose proof (length_bytes a) as La. pose proof (length_bytes b) as Lb.
  unfold mstr_strcmp. cbv zeta.
  destruct (mstr_length a =? 0)%nat eqn:Ea.
  - apply Nat.eqb_eq in Ea.
    destruct (mstr_bytes a); [|cbn in La; lia].
    destruct (mstr_bytes b); cbn in Lb; rewrite Hb, <- Lb; reflexivity.
  - apply Nat.eqb_neq in Ea.
    destruct (mstr_length b =? 0)%nat eqn:Eb.
    + apply Nat.eqb_eq in Eb.
      destruct (mstr_bytes b); [|cbn in Lb; lia].
      destruct (mstr_bytes a); [cbn in La; lia | reflexivity].
    + destruct (first_pos_spec a) as [Wa Ra].
      destruct (first_pos_spec b) as [Wb Rb].
      rewrite cmp_loop_lex by (try rewrite Ra; auto; lia).
      rewrite Ra, Rb. reflexivity.
Qed.


Lemma mstr_strcmp_lex_witness :
  (mstr_inv chain_ab /\ mstr_inv chain_ac) /\
  mstr_strcmp signed_char chain_ab chain_ac = -1.
Proof.
  assert (Ha : mstr_inv chain_ab).
  { split; [reflexivity|]. split; [cbn; auto|]. repeat constructor; cbn; lia. }
  assert (Hb : mstr_inv chain_ac).
  { split; [reflexivity|]. split; [cbn; auto|]. repeat constructor; cbn; lia. }
  split; [split; assumption|].
  rewrite (mstr_strcmp_lex signed_char chain_ab chain_ac Ha Hb).
  vm_compute. reflexivity.
Defined.

(** *** Conversions and copies *)

Lemma copy_blocks_spec (buf : nat -> Z) (off : nat) (chain : mstring) (i : nat) :
  copy_blocks buf off chain i =
  if (off <=? i)%nat && (i <? off + List.length (mstr_bytes chain))%nat
  then nth (i - off) (mstr_bytes chain) 0 else buf i.
Proof.
  revert buf off; induction chain as [|b rest IH]; intros buf off.
  - rewrite bytes_nil. cbn [copy_blocks List.length].
    destruct (Nat.le_gt_cases off i); settle_nat; reflexivity.
  - cbn [copy_blocks]. rewrite IH. unfold memcpy_fn.
    rewrite bytes_cons, length_app, length_map, length_seq.
    destruct (Nat.lt_ge_cases i off);
      [settle_nat; reflexivity|].
    destruct (Nat.lt_ge_cases i (off + local_length b)).
    + settle_nat. rewrite app_nth1 by (rewrite length_map, length_seq; lia).
      rewrite nth_map_seq by lia. reflexivity.
    + destruct (Nat.lt_ge_cases i (off + local_length b + List.length (mstr_bytes rest)));
        settle_nat; [|reflexivity].
      rewrite app_nth2 by (rewrite length_map, length_seq; lia).
      rewrite length_map, length_seq. f_equal. lia.
Qed.

Lemma copy_all (buf : nat -> Z) (m : mstring) :
  map (copy_blocks buf 0 m) (seq 0 (List.length (mstr_bytes m))) = mstr_bytes m.
Proof.
  transitivity (map (fun i => nth i (mstr_bytes m) 0)
                    (seq 0 (List.length (mstr_bytes m)))).
  - apply map_ext_in. intros i Hi. apply in_seq in Hi.
    rewrite copy_blocks_spec. settle_nat. rewrite Nat.sub_0_r. reflexivity.
  - apply map_nth_seq.
Qed.

Lemma to_xstr_spec (junk : nat -> Z) (m : mstring) :
  mstr_length m = sum_used m ->
  xstr_contents (mstr_to_xstr junk m) = mstr_bytes m /\
  xstr_ok (mstr_to_xstr junk m).
Proof.
  intros Hl. pose proof (length_bytes m) as Lm.
  unfold mstr_to_xstr. cbv zeta.
  destruct (mstr_length m =? 0)%nat eqn:E.
  - apply Nat.eqb_eq in E. destruct (mstr_bytes m); [|cbn in Lm; lia].
    split; [reflexivity | exact I].
  - rewrite Hl, <- Lm. cbn [xstr_contents xstr_ok xcstr xlength].
    rewrite firstn_all2 by (rewrite length_map, length_seq; lia).
    rewrite copy_all. split; reflexivity.
Qed.

Lemma mstr_cstr_bytes (junk : nat -> Z) (m : mstring) :
  mstr_length m = sum_used m -> mstr_cstr junk m = mstr_bytes m ++ [0].
Proof.
  intros Hl. pose proof (length_bytes m) as Lm.
  unfold mstr_cstr. cbv zeta.
  destruct (mstr_length m =? 0)%nat eqn:E.
  - apply Nat.eqb_eq in E. destruct (mstr_bytes m); [|cbn in Lm; lia].
    reflexivity.
  - rewrite Hl, <- Lm.
    rewrite seq_S, map_app. cbn [map]. rewrite Nat.eqb_refl.
    f_equal. rewrite <- (copy_all junk m) at 2.
    apply map_ext_in. intros i Hi. apply in_seq in Hi. settle_nat.
    reflexivity.
Qed.

(** A chain that keeps the invariant holds the same bytes once converted
    to an immutable string (well formed), once made a C string by
    [mstr_cstr] (with a NUL after them) and once copied by [mstr_copy]:
    the three functions read the blocks in order and only their used
    part. *)
Theorem mstr_conversions_bytes (junk : nat -> Z) (m : mstring) :
  mstr_inv m ->
  xstr_contents (mstr_to_xstr junk m) = mstr_bytes m /\
    xstr_ok (mstr_to_xstr junk m) /\
    mstr_cstr junk m = mstr_bytes m ++ [0] /\
    mstr_bytes (mstr_copy junk m) = mstr_bytes m.
Proof.
  intros [Hl Hrest].
  destruct (to_xstr_spec junk m Hl) as [H1 H2].
  split; [exact H1|]. split; [exact H2|].
  split; [apply mstr_cstr_bytes; exact Hl|].
  pose proof (length_bytes m) as Lm.
  unfold mstr_copy. cbv zeta.
  destruct (mstr_length m =? 0)%nat eqn:E.
  - apply Nat.eqb_eq in E. destruct (mstr_bytes m); [|cbn in Lm; lia].
    reflexivity.
  - rewrite Hl, <- Lm.
    rewrite bytes_cons, bytes_nil, app_nil_r. cbn [cstr local_length].
    apply copy_all.
Qed.

Lemma mstr_conversions_bytes_witness :
  mstr_inv chain_ab /\
  mstr_cstr (fun _ => 0) chain_ab = [97; 98; 0].
Proof.
  assert (Ha : mstr_inv chain_ab).
  { split; [reflexivity|]. split; [cbn; auto|]. repeat constructor; cbn; lia. }
  split; [exact Ha|].
  destruct (mstr_conversions_bytes (fun _ => 0) chain_ab Ha) as (_ & _ & H & _).
  rewrite H. vm_compute. reflexivity.
Defined.

Lemma memcpy_before (dst : nat -> Z) (off : nat) (src : list Z) (n : nat) :
  map (memcpy dst off src n) (seq 0 off) = map dst (seq 0 off).
Proof.
  apply map_ext_in. intros i Hi. apply in_seq in Hi.
  unfold memcpy, memcpy_fn. settle_nat. reflexivity.
Qed.

Lemma shifted_firstn (src : list Z) (off n : nat) :
  (n <= List.length src)%nat ->
  map (fun i => nth (i - off) src 0) (seq off n) = firstn n src.
Proof.
  revert off n; induction src as [|a src IH]; intros off n Hn.
  - destruct n; [reflexivity | cbn in Hn; lia].
  - destruct n as [|n]; [reflexivity|]. cbn in Hn.
    cbn [seq map firstn]. rewrite Nat.sub_diag. cbn [nth]. f_equal.
    rewrite <- (IH (S off) n) by lia. apply map_ext_in.
    intros i Hi. apply in_seq in Hi.
    replace (i - off)%nat with (S (i - S off)) by lia. reflexivity.
Qed.

Lemma memcpy_map (dst : nat -> Z) (off : nat) (src : list Z) (n : nat) :
  (n <= List.length src)%nat ->
  map (memcpy dst off src n) (seq off n) = firstn n src.
Proof.
  intros Hn. rewrite <- (shifted_firstn src off n Hn).
  apply map_ext_in. intros i Hi. apply in_seq in Hi.
  unfold memcpy, memcpy_fn. settle_nat. reflexivity.
Qed.

Lemma new_block_cap (junk : nat -> Z) (n : nat) :
  (n <= local_capacity (mstr_new_block junk n))%nat.
Proof.
  unfold mstr_new_block. destruct (n =? 0)%nat eqn:E; cbn [local_capacity].
  - apply Nat.eqb_eq in E. lia.
  - lia.
Qed.

Lemma to_mstr_spec (junk : nat -> Z) (x : xstring) :
  xstr_ok x ->
  mstr_inv (xstr_to_mstr junk x) /\ mstr_bytes (xstr_to_mstr junk x) = xstr_contents x.
Proof.
  destruct x as [o|].
  2:{ intros _. split; [split; [reflexivity | split; [exact I | constructor]] | reflexivity]. }
  intros Ho. rewrite contents_ok by exact Ho. cbn in Ho.
  unfold xstr_to_mstr. cbv zeta.
  destruct (xlength o =? 0)%nat eqn:E.
  - apply Nat.eqb_eq in E. destruct (xcstr o); [|cbn in Ho; lia].
    split; [split; [reflexivity | split; [exact I | constructor]] | reflexivity].
  - apply Nat.eqb_neq in E. split.
    + split; [cbn; lia|]. split; [exact I|]. constructor; [|constructor].
      cbn [local_length local_capacity].
      pose proof (new_block_cap junk (xlength o + MSTR_INC)). lia.
    + rewrite bytes_cons, bytes_nil, app_nil_r. cbn [cstr local_length].
      rewrite memcpy_map by lia. apply firstn_all2. lia.
Qed.

(** [xstr_to_mstr] of a well-formed string is a one-block chain that
    keeps the invariant and holds the string's bytes; converting it back
    with [mstr_to_xstr] gives the same bytes. *)
Theorem xstr_to_mstr_roundtrip (junk : nat -> Z) (x : xstring) :
  xstr_ok x ->
  mstr_inv (xstr_to_mstr junk x) /\
  mstr_bytes (xstr_to_mstr junk x) = xstr_contents x /\
  xstr_contents (mstr_to_xstr junk (xstr_to_mstr junk x)) = xstr_contents x.
Proof.
  intros Hx. destruct (to_mstr_spec junk x Hx) as [Hi Hb].
  split; [exact Hi|]. split; [exact Hb|].
  destruct (to_xstr_spec junk (xstr_to_mstr junk x) (proj1 Hi)) as [H _].
  rewrite H. exact Hb.
Qed.

Lemma xstr_to_mstr_roundtrip_witness :
  xstr_contents (mstr_to_xstr (fun _ => 0)
     (xstr_to_mstr (fun _ => 0) (Some {| xcstr := [104; 105]; xlength := 2 |})))
  = [104; 105].
Proof.
  exact (proj2 (proj2 (xstr_to_mstr_roundtrip (fun _ => 0)
                         (Some {| xcstr := [104; 105]; xlength := 2 |}) eq_refl))).
Defined.

Lemma concat_chain_bytes (slen : nat) (here second : mstring) :
  mstr_bytes (concat_chain slen here second) = mstr_bytes here ++ mstr_bytes second.
Proof.
  induction here as [|b rest IH]; [reflexivity|].
  destruct rest as [|b' rest'].
  - cbn [concat_chain]. rewrite !bytes_cons, bytes_nil, app_nil_r. reflexivity.
  - change (concat_chain slen (b :: b' :: rest') second) with
      (set_length b (length b + slen) :: concat_chain slen (b' :: rest') second).
    rewrite bytes_cons, IH, (bytes_cons b). rewrite app_assoc. reflexivity.
Qed.

(** [mstr_concat] holds the bytes of its first argument followed by those
    of its second, whatever the chains: no byte is lost or repeated by
    the relinking of blocks. *)
Theorem mstr_concat_bytes (a b : mstring) :
  mstr_bytes (mstr_concat a b) = mstr_bytes a ++ mstr_bytes b.
Proof.
  destruct b as [|b0 b']; [cbn [mstr_concat]; rewrite bytes_nil, app_nil_r; reflexivity|].
  destruct a as [|a0 a']; [reflexivity|].
  apply concat_chain_bytes.
Qed.

Lemma wrap_bytes (junk : nat -> Z) (s : list Z) :
  mstr_bytes (mstr_wrap junk s) = firstn (strlen s) s.
Proof.
  pose proof (strlen_le s) as Hs. unfold mstr_wrap. cbv zeta.
  destruct (strlen s =? 0)%nat eqn:E.
  - apply Nat.eqb_eq in E. rewrite E. reflexivity.
  - rewrite bytes_cons, bytes_nil, app_nil_r. cbn [cstr local_length].
    apply memcpy_map. exact Hs.
Qed.

Lemma snoc_cons (pre : mstring) (b : mstring_) :
  exists x y, pre ++ [b] = x :: y.
Proof. destruct pre; cbn; eauto. Qed.

Lemma append_chain_fits (junk : nat -> Z) (len : nat) (s : list Z) (pre : mstring) (b : mstring_) :
  (len <= local_capacity b - local_length b)%nat -> (len <= List.length s)%nat ->
  mstr_bytes (append_chain junk len s (pre ++ [b])) =
  mstr_bytes (pre ++ [b]) ++ firstn len s.
Proof.
  intros Hfit Hs. induction pre as [|p pre IH].
  - cbn [app append_chain set_length local_capacity local_length length cstr].
    settle_nat. rewrite !bytes_cons, !bytes_nil, !app_nil_r.
    cbn [cstr local_length]. rewrite seq_app, map_app, memcpy_before.
    rewrite Nat.add_0_l, memcpy_map by exact Hs. reflexivity.
  - destruct (snoc_cons pre b) as (x & y & Exy).
    cbn [app]. rewrite Exy.
    change (append_chain junk len s (p :: x :: y)) with
      (set_length p (length p + len) :: append_chain junk len s (x :: y)).
    rewrite <- Exy.
    rewrite !bytes_cons, IH. cbn [set_length cstr local_length].
    rewrite app_assoc. reflexivity.
Qed.

(** [mstr_append_cstr] appends the bytes of the C string up to its NUL
    when the chain is empty or its last block has room for all of them. *)
Theorem mstr_append_cstr_fits (junk : nat -> Z) (m : mstring) (s : list Z) :
  (m = [] \/ exists pre b, m = pre ++ [b] /\
                           (strlen s <= local_capacity b - local_length b)%nat) ->
  mstr_bytes (mstr_append_cstr junk m s) = mstr_bytes m ++ firstn (strlen s) s.
Proof.
  intros [-> | (pre & b & -> & Hfit)]; [apply wrap_bytes|].
  pose proof (strlen_le s) as Hs.
  destruct (snoc_cons pre b) as (x & y & Exy).
  unfold mstr_append_cstr. rewrite Exy. cbv zeta. rewrite <- Exy.
  destruct (strlen s =? 0)%nat eqn:E.
  - apply Nat.eqb_eq in E. rewrite E, app_nil_r. reflexivity.
  - apply append_chain_fits; assumption.
Qed.

Lemma mstr_append_cstr_fits_witness :
  mstr_bytes (mstr_append_cstr (fun _ => 0) chain_ab [99; 100; 0]) = [97; 98; 99; 100].
Proof.
  rewrite (mstr_append_cstr_fits (fun _ => 0) chain_ab [99; 100; 0]).
  - vm_compute. reflexivity.
  - right. exists (firstn 2 chain_ab), (nth 2 chain_ab (mstr_new_block (fun _ => 0) 0)).
    split; [reflexivity | cbn; lia].
Defined.

End XStringMore.


(* ================================================================== *)
(** ** More facts about the parser *)
(* ================================================================== *)

Module ParserMore.
Import Parser ParserFacts.

Lemma peek_n_loop_frame (k idx : nat) (p : parser) :
  frame (snd (peek_n_loop k idx p)) = frame p.
Proof.
  revert idx p; induction k as [|k IH]; intros idx p; [reflexivity|].
  cbn [peek_n_loop].
  pose proof (look_frame_snd p idx) as F.
  destruct (spsps_look_ p idx) as [x p1]. cbn [snd] in F. cbv beta iota.
  pose proof (IH (S idx) p1) as F1.
  destruct (peek_n_loop k (S idx) p1) as [rest p2]. cbn [snd] in F1 |- *.
  congruence.
Qed.

(** The query functions [spsps_peek], [spsps_peek_n], [spsps_peek_str],
    [spsps_eof] and [spsps_loc] never consume: they leave the blocks, the
    rest of the stream, the cursor, the line and column, the end-of-file
    flag and counter and the name as they are, and only update the look
    counter and the error field. *)
Theorem queries_keep_frame (p : parser) (n : nat) (s : list Z) :
  frame (snd (spsps_peek p)) = frame p /\
  frame (snd (spsps_peek_n p n)) = frame p /\
  frame (snd (spsps_peek_str p s)) = frame p /\
  frame (snd (spsps_eof p)) = frame p /\
  frame (snd (spsps_loc p)) = frame p.
Proof.
  split; [unfold spsps_peek; rewrite look_frame_snd; reflexivity|].
  split.
  { unfold spsps_peek_n. destruct (SPSPS_LOOK <=? n)%nat; [reflexivity|].
    rewrite peek_n_loop_frame. reflexivity. }
  split.
  { unfold spsps_peek_str. destruct (SPSPS_LOOK <=? XString.strlen s)%nat;
      [reflexivity|].
    rewrite peek_str_loop_frame. reflexivity. }
  split; reflexivity.
Qed.

Lemma look_step (p : parser) (n : nat) :
  (n < SPSPS_LOOK)%nat -> 0 <= look_count p -> look_count p + 1 < 65536 ->
  spsps_look_ p n =
  (if 1000 <? look_count p + 1 then SPSPS_EOF else look_byte p n,
   if 1000 <? look_count p + 1
   then set_errno (set_look_count p (look_count p + 1)) STALLED
   else set_look_count p (look_count p + 1)).
Proof.
  intros Hn H0 H1. unfold spsps_look_.
  rewrite (proj2 (Nat.leb_gt _ _) Hn). cbv zeta.
  cbn [look_count set_look_count]. unfold u16.
  rewrite Z.mod_small by lia.
  destruct (1000 <? look_count p + 1); reflexivity.
Qed.

Lemma peek_n_loop_spec (k idx : nat) (p : parser) :
  0 <= look_count p -> look_count p + Z.of_nat k < 65536 ->
  (idx + k <= SPSPS_LOOK)%nat ->
  fst (peek_n_loop k idx p) =
    map (fun j => if 1000 <? look_count p + Z.of_nat j + 1 then SPSPS_EOF
                  else look_byte p (idx + j)) (seq 0 k) /\
  look_count (snd (peek_n_loop k idx p)) = look_count p + Z.of_nat k /\
  errno (snd (peek_n_loop k idx p)) =
    (if (0 <? k)%nat && (1000 <? look_count p + Z.of_nat k) then STALLED
     else errno p).
Proof.
  revert idx p; induction k as [|k IH]; intros idx p H0 H1 Hk.
  - cbn. split; [reflexivity|]. split; [lia | reflexivity].
  - cbn [peek_n_loop]. rewrite look_step by lia.
    destruct (1000 <? look_count p + 1) eqn:Es; cbv beta iota;
    match goal with |- context [peek_n_loop k (S idx) ?q] =>
      destruct (IH (S idx) q) as (F & L & E);
      [cbv [SPSPS_LOOK] in *; cbn; lia | cbv [SPSPS_LOOK] in *; cbn; lia | lia |];
      destruct (peek_n_loop k (S idx) q) as [rest p2]
    end;
    cbn [fst snd look_count errno set_errno set_look_count] in F, L, E |- *.
    all: split; [|split; [rewrite L; lia|rewrite E]].
    1, 3: rewrite F; cbn [seq map]; rewrite Nat.add_0_r;
      replace (look_count p + Z.of_nat 0 + 1) with (look_count p + 1) by lia;
      rewrite Es; f_equal;
      rewrite <- seq_shift, map_map; apply map_ext; intros j;
      replace (look_count p + Z.of_nat (S j) + 1)
        with (look_count p + 1 + Z.of_nat j + 1) by lia;
      replace (idx + S j)%nat with (S idx + j)%nat by lia; reflexivity.
    + rewrite Z.ltb_lt in Es.
      rewrite (proj2 (Z.ltb_lt _ (look_count p + Z.of_nat (S k)))) by lia.
      destruct k; cbn; [reflexivity|].
      rewrite (proj2 (Z.ltb_lt _ (look_count p + 1 + Z.of_nat (S k)))) by lia.
      reflexivity.
    + rewrite Z.ltb_ge in Es.
      replace (look_count p + 1 + Z.of_nat k) with (look_count p + Z.of_nat (S k))
        by lia.
      destruct k; cbn [Nat.ltb Nat.leb andb]; [|reflexivity].
      rewrite (proj2 (Z.ltb_ge _ _)) by lia. reflexivity.
Qed.

(** [spsps_peek_n p n], for [n] below [SPSPS_LOOK], returns the next [n]
    bytes of the lookahead, except that every look past the thousandth
    since the last consume reads [SPSPS_EOF]; it adds [n] to the look
    counter and reports [STALLED] exactly when some look stalled. *)
Theorem peek_n_contents (p : parser) (n : nat) :
  (n < SPSPS_LOOK)%nat -> 0 <= look_count p ->
  look_count p + Z.of_nat n < 65536 ->
  fst (spsps_peek_n p n) =
    map (fun j => if 1000 <? look_count p + Z.of_nat j + 1 then SPSPS_EOF
                  else look_byte p j) (seq 0 n) /\
  look_count (snd (spsps_peek_n p n)) = look_count p + Z.of_nat n /\
  errno (snd (spsps_peek_n p n)) =
    (if (0 <? n)%nat && (1000 <? look_count p + Z.of_nat n) then STALLED
     else OK).
Proof.
  intros Hn H0 H1. unfold spsps_peek_n.
  rewrite (proj2 (Nat.leb_gt _ _) Hn).
  exact (peek_n_loop_spec n 0 (set_errno p OK) H0 H1 ltac:(lia)).
Qed.

Lemma peek_n_contents_witness :
  fst (spsps_peek_n (filled_parser [97; 98; 99] 998) 3) = [97; 98; SPSPS_EOF] /\
  errno (snd (spsps_peek_n (filled_parser [97; 98; 99] 998) 3)) = STALLED.
Proof.
  destruct (peek_n_contents (filled_parser [97; 98; 99] 998) 3)
    as (F & _ & E); [unfold SPSPS_LOOK; lia | cbv [SPSPS_LOOK] in *; cbn; lia | cbv [SPSPS_LOOK] in *; cbn; lia |].
  rewrite F, E. split; vm_compute; reflexivity.
Defined.

(** *** Consuming *)

Lemma step_keeps (p : parser) :
  at_eof (consume_step p) = at_eof p /\ errno (consume_step p) = errno p /\
  look_count (consume_step p) = look_count p /\
  eof_count (consume_step p) = eof_count p.
Proof.
  unfold consume_step.
  destruct (cur p =? 10); destruct (SPSPS_LOOK <=? S (next p))%nat;
  repeat split.
Qed.

Lemma loop_keeps (n : nat) (p : parser) :
  errno (consume_loop n p) = errno p /\
  look_count (consume_loop n p) = look_count p /\
  eof_count (consume_loop n p) = eof_count p /\
  (at_eof p = true -> at_eof (consume_loop n p) = true).
Proof.
  revert p; induction n as [|n IH]; intros p; [repeat split; auto|].
  cbn [consume_loop]. destruct (cur p =? SPSPS_EOF); [repeat split; auto|].
  destruct (step_keeps p) as (A & B & C & D).
  destruct (IH (consume_step p)) as (A' & B' & C' & D').
  rewrite A', B', C', B, C, D. repeat split. intros H. apply D'. congruence.
Qed.

Lemma consume_loop_compose (a b : nat) (p : parser) :
  consume_loop (a + b) p = consume_loop b (consume_loop a p).
Proof.
  revert p; induction a as [|a IH]; intros p; [reflexivity|].
  cbn [Nat.add consume_loop]. destruct (cur p =? SPSPS_EOF) eqn:E.
  - destruct b as [|b]; [reflexivity|]. cbn [consume_loop].
    replace (cur (set_at_eof p true)) with (cur p) by reflexivity.
    rewrite E. reflexivity.
  - apply IH.
Qed.

Lemma consume_n_run (p : parser) (n : nat) :
  (n < SPSPS_LOOK)%nat -> at_eof p = false ->
  spsps_consume_n p n = consume_loop n (set_look_count (set_errno p OK) 0).
Proof.
  intros Hn Ha. unfold spsps_consume_n.
  rewrite (proj2 (Nat.leb_gt _ _) Hn). cbv zeta.
  cbn [at_eof set_look_count set_errno]. rewrite Ha. reflexivity.
Qed.

Lemma reset_id (q : parser) :
  errno q = OK -> look_count q = 0 -> set_look_count (set_errno q OK) 0 = q.
Proof. destruct q; cbn. intros -> ->. reflexivity. Qed.

Lemma consume_n_compose_gen (p : parser) (a b : nat) :
  (a + b < SPSPS_LOOK)%nat -> at_eof p = false ->
  at_eof (spsps_consume_n p a) = false ->
  spsps_consume_n p (a + b) = spsps_consume_n (spsps_consume_n p a) b.
Proof.
  intros Hab Ha Ha'.
  rewrite (consume_n_run (spsps_consume_n p a) b) by (auto; lia).
  rewrite !consume_n_run by (auto; lia).
  destruct (loop_keeps a (set_look_count (set_errno p OK) 0)) as (E & L & _).
  cbn [errno look_count set_look_count set_errno] in E, L.
  rewrite (reset_id _ E L).
  apply consume_loop_compose.
Qed.

(** Consuming [a] bytes and then [b] bytes is consuming [a + b] bytes,
    while the parser is not at the end of file before and after the
    first call (a first call that sets the end-of-file flag makes the
    second count one more end-of-file consume). *)
Theorem consume_n_compose (p : parser) (a b : nat) :
  (a + b < SPSPS_LOOK)%nat -> at_eof p = false ->
  at_eof (spsps_consume_n p a) = false ->
  spsps_consume_n p (a + b) = spsps_consume_n (spsps_consume_n p a) b.
Proof. exact (consume_n_compose_gen p a b). Qed.

Lemma consume_n_compose_witness :
  next (spsps_consume_n (filled_parser [97; 98; 99] 0) (1 + 1)) =
  next (spsps_consume_n (spsps_consume_n (filled_parser [97; 98; 99] 0) 1) 1).
Proof.
  rewrite (consume_n_compose (filled_parser [97; 98; 99] 0) 1 1);
    [reflexivity | cbv [SPSPS_LOOK] in *; cbn; lia | reflexivity | vm_compute; reflexivity].
Defined.

(** At the end-of-file byte, [spsps_consume_n] does not move: the block,
    cursor, line, column, blocks and stream stay as they are, and any
    consume of at least one byte leaves the end-of-file flag set. *)
Theorem consume_n_at_eof_byte (p : parser) (n : nat) :
  cur p = SPSPS_EOF -> (n < SPSPS_LOOK)%nat ->
  let q := spsps_consume_n p n in
  pos q = pos p /\ stream q = stream p /\ blocks q = blocks p /\
  ((0 < n)%nat -> at_eof q = true).
Proof.
  intros Hc Hn. cbv zeta. unfold spsps_consume_n.
  rewrite (proj2 (Nat.leb_gt _ _) Hn). cbv zeta.
  cbn [at_eof set_look_count set_errno set_eof_count eof_count].
  unfold cur in Hc.
  destruct n as [|m]; cbn [consume_loop cur blocks block next set_look_count
                           set_errno set_eof_count eof_count at_eof];
    rewrite ?Hc, ?Z.eqb_refl;
    destruct (at_eof p) eqn:Ea; split_ifs;
    repeat split; try reflexivity; intros; try lia; cbn; auto.
Qed.

Lemma consume_n_at_eof_byte_witness :
  at_eof (spsps_consume_n (filled_parser [] 0) 3) = true /\
  next (spsps_consume_n (filled_parser [] 0) 3) = 0%nat.
Proof.
  destruct (consume_n_at_eof_byte (filled_parser [] 0) 3) as (P & _ & _ & A);
    [reflexivity | cbv [SPSPS_LOOK] in *; cbn; lia |].
  split; [apply A; lia|].
  exact (f_equal (fun x => snd (fst (fst x))) P).
Defined.

Lemma set_errno_id (q : parser) (e : spsps_errno) : errno q = e -> set_errno q e = q.
Proof. destruct q; cbn. intros ->. reflexivity. Qed.

Lemma consume_is_consume_n (p : parser) :
  at_eof p = false -> snd (spsps_consume p) = spsps_consume_n p 1.
Proof.
  intros Ha. unfold spsps_consume. cbn [snd].
  apply set_errno_id. rewrite consume_n_run by (auto; cbv [SPSPS_LOOK] in *; cbn; lia).
  destruct (loop_keeps 1 (set_look_count (set_errno p OK) 0)) as (E & _).
  exact E.
Qed.

Lemma consume_at_eof (p : parser) :
  at_eof p = true -> at_eof (snd (spsps_consume p)) = true.
Proof.
  intros Ha. unfold spsps_consume, spsps_consume_n. cbn [snd].
  replace (SPSPS_LOOK <=? 1)%nat with false by reflexivity. cbv zeta.
  cbn [at_eof set_look_count set_errno]. rewrite Ha.
  cbn [at_eof set_eof_count eof_count]. split_ifs; [exact Ha|].
  apply (loop_keeps 1). exact Ha.
Qed.

Lemma times_at_eof (k : nat) (p : parser) :
  at_eof p = true -> at_eof (consume_times k p) = true.
Proof.
  revert p; induction k as [|k IH]; intros p Ha; [exact Ha|].
  cbn [consume_times]. apply IH. apply consume_at_eof. exact Ha.
Qed.

(** [k] calls to [spsps_consume] do what one [spsps_consume_n] of [k]
    bytes does, when the parser does not reach the end of file. *)
Theorem consume_times_consume_n (k : nat) (p : parser) :
  (0 < k < SPSPS_LOOK)%nat -> at_eof p = false ->
  at_eof (consume_times k p) = false ->
  consume_times k p = spsps_consume_n p k.
Proof.
  revert p; induction k as [|k IH]; intros p Hk Ha Ha'; [lia|].
  cbn [consume_times] in Ha' |- *.
  rewrite consume_is_consume_n in Ha' |- * by exact Ha.
  destruct (at_eof (spsps_consume_n p 1)) eqn:E1.
  { rewrite times_at_eof in Ha' by exact E1. discriminate. }
  destruct k as [|k]; [reflexivity|].
  rewrite IH by (auto; lia).
  rewrite <- consume_n_compose_gen by (auto; lia). reflexivity.
Qed.

Lemma consume_times_consume_n_witness :
  consume_times 2 (filled_parser [97; 10; 99] 0) =
  spsps_consume_n (filled_parser [97; 10; 99] 0) 2.
Proof.
  apply (consume_times_consume_n 2 (filled_parser [97; 10; 99] 0));
    [cbv [SPSPS_LOOK] in *; cbn; lia | reflexivity | vm_compute; reflexivity].
Defined.

Lemma consume_one (p : parser) :
  at_eof p = false -> cur p <> SPSPS_EOF ->
  snd (spsps_consume p) =
  set_errno (consume_step (set_look_count (set_errno p OK) 0)) OK.
Proof.
  intros Ha Hc. unfold spsps_consume. cbn [snd].
  rewrite consume_n_run by (auto; cbv [SPSPS_LOOK] in *; cbn; lia). cbn [consume_loop].
  replace (cur (set_look_count (set_errno p OK) 0)) with (cur p) by reflexivity.
  rewrite (proj2 (Z.eqb_neq _ _) Hc). reflexivity.
Qed.

(** A consume of a byte other than [SPSPS_EOF] slides the lookahead by
    one byte; when it takes the cursor off the end of the active block,
    the other block (read ahead) becomes active and the block just left
    is refilled with the next [SPSPS_LOOK] bytes of the stream, padded
    with [SPSPS_EOF]. *)
Theorem consume_shifts_lookahead (p : parser) :
  (next p < SPSPS_LOOK)%nat -> cur p <> SPSPS_EOF -> at_eof p = false ->
  let q := snd (spsps_consume p) in
  (forall i, (i + S (next p) < 2 * SPSPS_LOOK)%nat ->
             look_byte q i = look_byte p (S i)) /\
  ((S (next p) = SPSPS_LOOK)%nat ->
   block q = negb (block p) /\ next q = O /\
   stream q = skipn SPSPS_LOOK (stream p) /\
   forall i, (i < SPSPS_LOOK)%nat ->
             look_byte q (SPSPS_LOOK + i) = nth i (stream p) SPSPS_EOF).
Proof.
  intros Hn Hc Ha. cbv zeta. rewrite consume_one by assumption.
  split.
  - intros i Hi. change (look_byte (set_errno (consume_step
      (set_look_count (set_errno p OK) 0)) OK) i) with
      (look_byte (consume_step (set_look_count (set_errno p OK) 0)) i).
    rewrite look_shift by (cbv [SPSPS_LOOK] in *; cbn; lia). reflexivity.
  - intros Hw. unfold consume_step.
    replace (S (next (set_look_count (set_errno p OK) 0))) with SPSPS_LOOK
      by (cbv [SPSPS_LOOK] in *; cbn; lia).
    rewrite Nat.leb_refl, Nat.sub_diag.
    destruct (cur (set_look_count (set_errno p OK) 0) =? 10);
    cbv beta iota; unfold spsps_read_other_, look_byte;
    cbn [block next stream blocks set_errno set_look_count negb];
    (split; [reflexivity|]); (split; [reflexivity|]); (split; [reflexivity|]);
    intros i Hi; rewrite Nat.add_0_r;
    rewrite (proj2 (Nat.ltb_ge _ _)) by lia;
    replace (SPSPS_LOOK + i - SPSPS_LOOK)%nat with i by lia;
    rewrite negb_involutive, eqb_reflx, (proj2 (Nat.ltb_lt _ _) Hi);
    reflexivity.
Qed.

Lemma consume_shifts_lookahead_witness :
  block (snd (spsps_consume at_block_end)) = true /\
  look_byte (snd (spsps_consume at_block_end)) 0 = 66 /\
  look_byte (snd (spsps_consume at_block_end)) 4096 = 1.
Proof.
  destruct (consume_shifts_lookahead at_block_end) as (S1 & S2);
    [cbv [SPSPS_LOOK] in *; cbn; lia | discriminate | reflexivity |].
  destruct (S2 eq_refl) as (B & _ & _ & L).
  split; [exact B|]. split.
  - rewrite S1 by (cbv [SPSPS_LOOK] in *; cbn; lia). reflexivity.
  - exact (L 0%nat ltac:(cbv [SPSPS_LOOK] in *; cbn; lia)).
Defined.

End ParserMore.

(* ================================================================== *)
(** ** Decoding mutable strings and counting encoded bytes *)
(* ================================================================== *)

Module DecodeMore.
Import UTF8 XString UTF8More XStringMore.

(** [mstr_decode] inverts the encoder as [xstr_decode] does: a chain
    that keeps the invariant and holds the UTF-8 encoding of valid code
    points, however its bytes are split into blocks, decodes to those
    code points followed by the terminating zero, and reports their
    number.  The NUL that [mstr_cstr] appends is never read. *)
Theorem mstr_decode_roundtrip (junk : nat -> Z) (m : mstring) (cps : list Z) :
  mstr_inv m -> mstr_bytes m = encode_all cps ->
  Forall (fun cp => 0 <= cp < 0x110000) cps ->
  Z.of_nat (List.length (encode_all cps)) < 2 ^ 64 ->
  mstr_decode junk m = Some (cps ++ [0], Some (List.length cps)).
Proof.
  intros [Hl Hrest] Hb Hf Hz.
  pose proof (length_bytes m) as Lm.
  pose proof (encode_all_length cps Hf) as Hle.
  unfold mstr_decode, decode, count_code_points.
  rewrite (mstr_cstr_bytes junk m Hl), Hb.
  rewrite Hl, <- Lm, Hb.
  rewrite (count_loop_encoded cps [0]) by (try assumption; lia).
  cbn [Nat.add]. rewrite decode_loop_encoded by exact Hf. reflexivity.
Qed.

Lemma mstr_decode_roundtrip_witness :
  mstr_decode (fun _ => 0)
    [{| cstr := fun i => nth i [0x41; 0xC3] 0; local_capacity := 2;
        local_length := 2; length := 3 |};
     {| cstr := fun i => nth i [0xA9] 0; local_capacity := 64;
        local_length := 1; length := 1 |}]
  = Some ([0x41; 0xE9; 0], Some 2%nat).
Proof.
  apply (mstr_decode_roundtrip (fun _ => 0) _ [0x41; 0xE9]).
  - split; [reflexivity|]. split; [cbn; auto|]. repeat constructor; cbn; lia.
  - vm_compute. reflexivity.
  - repeat constructor; lia.
  - vm_compute. reflexivity.
Defined.

Lemma encode_size_pos (cp : Z) :
  0 <= cp < 0x110000 -> (1 <= Z.to_nat (utf8encode_size cp) <= 4)%nat.
Proof.
  intros H. unfold utf8encode_size.
  destruct (cp <? 0x80); [cbn; lia|].
  destruct (cp <? 0x800); [cbn; lia|].
  destruct (cp <? 0x1000); [cbn; lia|].
  rewrite (proj2 (Z.ltb_lt _ _)) by lia. cbn. lia.
Qed.

Lemma utf8_size_cons (cp : Z) (cps : list Z) :
  utf8_size (cp :: cps) = (Z.to_nat (utf8encode_size cp) + utf8_size cps)%nat.
Proof. reflexivity. Qed.

Lemma count_bytes_loop_prefix (v : list Z) (bc n fuel : nat) :
  Forall (fun cp => 0 <= cp < 0x110000) v ->
  (n <= bc + List.length v)%nat -> (List.length v < fuel)%nat ->
  exists k, (k <= List.length v)%nat /\
    count_bytes_loop fuel v bc n = Some (bc + utf8_size (firstn k v))%nat /\
    (n <= bc + utf8_size (firstn k v))%nat /\
    forall j, (j < k)%nat -> (bc + utf8_size (firstn j v) < n)%nat.
Proof.
  intros Hf. revert bc fuel.
  induction Hf as [|cp v Hcp Hv IH]; intros bc fuel Hn Hfuel;
    (destruct fuel as [|f]; [cbn in Hfuel; lia|]); cbn [count_bytes_loop].
  - cbn [List.length] in Hn. rewrite (proj2 (Nat.ltb_ge _ _)) by lia.
    exists O. split; [lia|]. split; [f_equal; cbn; lia|].
    split; [cbn; lia | intros; lia].
  - destruct (bc <? n)%nat eqn:E.
    + apply Nat.ltb_lt in E. pose proof (encode_size_pos cp Hcp) as Hs.
      cbn [List.length] in Hn, Hfuel.
      destruct (IH (bc + Z.to_nat (utf8encode_size cp))%nat f ltac:(lia) ltac:(lia))
        as (k & Hk & Hc & Hge & Hlt).
      exists (S k). cbn [List.length firstn]. rewrite utf8_size_cons.
      split; [lia|]. split; [rewrite Hc; f_equal; lia|]. split; [lia|].
      intros [|j] Hj; [cbn; lia|].
      cbn [firstn]. rewrite utf8_size_cons. specialize (Hlt j ltac:(lia)). lia.
    + apply Nat.ltb_ge in E.
      exists O. split; [lia|]. split; [f_equal; cbn; lia|].
      split; [cbn; lia | intros; lia].
Qed.

(** [count_bytes(value, length)] compares the running byte count with
    [length], the number of code points: for valid code points it returns
    the UTF-8 size of the shortest prefix of the array whose size reaches
    [length], and so stops early on any multibyte character. *)
Theorem count_bytes_prefix (v : list Z) :
  Forall (fun cp => 0 <= cp < 0x110000) v ->
  exists k, (k <= List.length v)%nat /\
    count_bytes (Some v) (List.length v) = Some (utf8_size (firstn k v)) /\
    (List.length v <= utf8_size (firstn k v))%nat /\
    forall j, (j < k)%nat -> (utf8_size (firstn j v) < List.length v)%nat.
Proof.
  intros Hf. unfold count_bytes.
  destruct (count_bytes_loop_prefix v O (List.length v) (S (List.length v)) Hf
              ltac:(lia) ltac:(lia)) as (k & H1 & H2 & H3 & H4).
  exists k. split; [exact H1|]. split; [exact H2|]. split; [exact H3|].
  exact H4.
Qed.

Lemma count_bytes_prefix_witness :
  count_bytes (Some [0xE9; 0xE9]) 2 = Some 2%nat /\ utf8_size [0xE9; 0xE9] = 4%nat.
Proof.
  destruct (count_bytes_prefix [0xE9; 0xE9]) as (k & Hk & Hc & Hge & Hlt);
    [repeat constructor; lia|].
  split; [|reflexivity].
  destruct k as [|[|[|k]]]; cbn [List.length] in Hk, Hc, Hge, Hlt.
  - vm_compute in Hge. lia.
  - rewrite Hc. reflexivity.
  - specialize (Hlt 1%nat ltac:(lia)). vm_compute in Hlt. lia.
  - lia.
Defined.

End DecodeMore.
